(** * FalseSkill: a shallow embedding of falseskill.ts

    The module is embedded from its TypeScript source, falseskill.ts;
    the transpiled AMD module that the package ships differs from it in
    one place (where [TauSq] is evaluated) and is embedded beside it.

    The source computes with ECMAScript numbers.  The embedding is
    written once over an arithmetic interface and read twice:

    - in [float] (IEEE-754 binary64, the machine numbers of the source),
      where the four operations, [Math.sqrt], [Math.abs] and the
      comparisons are bit-exact and computable;
    - in [R], the exact arithmetic that the formulas of the Glicko-2
      paper speak about, where the analytic facts are proved.

    [Math.exp], [Math.log] and [Math.pow] are implementation-approximated
    in ECMAScript; over [float] they stay parameters of the model.

    Objects are shared and assigned in place by the [update*] functions,
    so those are embedded over a store of rating objects; the two
    [while] loops of the volatility solver have no bound in the source
    and take fuel in the model. *)

From Stdlib Require Import Reals Lra Lia Floats ZArith QArith Qreals.
From Stdlib Require Import String Ascii List Bool Arith PeanoNat Uint63.
From Stdlib Require Import Permutation.
Import ListNotations.
Open Scope nat_scope.

(** ** The arithmetic of the source *)

(** The operations that IEEE-754 fixes bit for bit. *)
Class Arith (num : Type) := {
  lit      : Q -> num;                 (* a decimal literal of the source *)
  add      : num -> num -> num;
  sub      : num -> num -> num;
  mul      : num -> num -> num;
  div      : num -> num -> num;
  neg      : num -> num;
  ltb      : num -> num -> bool;       (* the JS operator <  *)
  Math_abs  : num -> num;
  Math_sqrt : num -> num
}.

(** The library functions that the language leaves to the engine. *)
Class MathLib (num : Type) := {
  Math_PI  : num;
  Math_E   : num;
  Math_exp : num -> num;
  Math_log : num -> num;
  Math_pow : num -> num -> num
}.

Declare Scope js_scope.
Delimit Scope js_scope with js.
Notation "x + y" := (add x y) : js_scope.
Notation "x - y" := (sub x y) : js_scope.
Notation "x * y" := (mul x y) : js_scope.
Notation "x / y" := (div x y) : js_scope.
Notation "- x" := (neg x) : js_scope.
Notation "x <? y" := (ltb x y) : js_scope.
Notation "x >? y" := (ltb y x) : js_scope.

(** What a call of a function of the module can end in.  [OutOfFuel] is
    not a behaviour of the source: it marks a run of the model that was
    cut off inside one of the two unbounded [while] loops. *)
Inductive completion (A : Type) : Type :=
| Normal (a : A)
| Throw (msg : string)
| OutOfFuel.
Arguments Normal {A} a.
Arguments Throw {A} msg.
Arguments OutOfFuel {A}.

Definition err_lengths : string :=
  "number of opponents is different than number of outcomes".
Definition err_multiple_ranks : string :=
  "players cannot reach multiple ranks at once".
Definition err_no_match : string :=
  "there is no player matching the provided filter".

(** ** The module, over any arithmetic *)

Section FalseSkill.
Context {num : Type} {AR : Arith num} {ML : MathLib num}.
Local Open Scope js_scope.

(** The exported, assignable variables of the module. *)
Record Exports : Type := {
  Tau               : num;
  InitialRating     : num;
  InitialDeviation  : num;
  InitialVolatility : num
}.

Definition defaults : Exports :=
  {| Tau := lit (75 # 100);
     InitialRating := lit 1500;
     InitialDeviation := lit 350;
     InitialVolatility := lit (6 # 100) |}.

Definition set_Tau (t : num) (e : Exports) : Exports :=
  {| Tau := t;
     InitialRating := InitialRating e;
     InitialDeviation := InitialDeviation e;
     InitialVolatility := InitialVolatility e |}.

Definition Loss : num := lit 0.
Definition Draw : num := lit (5 # 10).
Definition Win  : num := lit 1.

(** [PlayerRating]; an [OpponentRating] is the same object read through
    its first two fields only (its volatility is copied along by
    [toGlicko2Scale] and never read). *)
Record PlayerRating : Type := {
  rating     : num;
  deviation  : num;
  volatility : num
}.

Definition newRating (e : Exports) : PlayerRating :=
  {| rating := InitialRating e;
     deviation := InitialDeviation e;
     volatility := InitialVolatility e |}.

Definition Math_sq (x : num) : num := x * x.

Definition PiSq : num := Math_PI * Math_PI.

Definition toGlicko2Scale (r : PlayerRating) : PlayerRating :=
  {| rating := (rating r - lit 1500) / lit (1737178 # 10000);
     deviation := deviation r / lit (1737178 # 10000);
     volatility := volatility r |}.

Definition toGlicko1Scale (r : PlayerRating) : PlayerRating :=
  {| rating := lit (1737178 # 10000) * rating r + lit 1500;
     deviation := lit (1737178 # 10000) * deviation r;
     volatility := volatility r |}.

(** The local [player] is rebound to the fresh object that
    [toGlicko2Scale] returns before its deviation is assigned, so the
    caller's object is not touched. *)
Definition calculateRatingDidNotCompete (player : PlayerRating) : PlayerRating :=
  let player := toGlicko2Scale player in
  let player :=
    {| rating := rating player;
       deviation := Math_sqrt (Math_sq (deviation player) + Math_sq (volatility player));
       volatility := volatility player |} in
  toGlicko1Scale player.

(** *** Steps 3 and 4 of calculateRating *)

Definition g (deviation : num) : num :=
  lit 1 / Math_sqrt (lit 1 + lit 3 * Math_sq deviation / PiSq).

Definition E (rating opponentRating opponentDeviation : num) : num :=
  lit 1 / (lit 1 + Math_exp (- g opponentDeviation * (rating - opponentRating))).

(** [var v = 0; opponents.forEach(... v += ...)] (lines 77-81) *)
Definition v_sum (player : PlayerRating) (opponents : list PlayerRating) : num :=
  fold_left
    (fun v opponent =>
       let e := E (rating player) (rating opponent) (deviation opponent) in
       v + Math_sq (g (deviation opponent)) * e * (lit 1 - e))
    opponents (lit 0).

(** [var DSum = 0; opponents.forEach((opponent, index) => DSum += ...)]
    (lines 86-89);
    [outcomes[index]] is in range because the lengths were compared on
    entry, so the two arrays are walked together. *)
Definition D_sum (player : PlayerRating) (opponents : list PlayerRating)
    (outcomes : list num) : num :=
  fold_left
    (fun DSum '(opponent, outcome) =>
       DSum + g (deviation opponent)
              * (outcome - E (rating player) (rating opponent) (deviation opponent)))
    (combine opponents outcomes) (lit 0).

(** *** Step 5: the volatility solver *)

(** The closure [f] of the source (lines 96-100), its free variables
    made arguments. *)
Definition f (D deviationSq v a TauSq : num) (x : num) : num :=
  let ePowX := Math_pow Math_E x in
  (ePowX * (Math_sq D - deviationSq - v - ePowX))
    / Math_sq (lit 2 * (deviationSq + v + ePowX))
  - (x - a) / TauSq.

(** [let k = 1; while (f(a - k * Tau) < 0.0) k = k + 1] (lines
    108-110): the value of [k] on exit, if the loop is left within
    [fuel] tests. *)
Fixpoint bracket_search (fuel : nat) (fx : num -> num) (a Tau k : num)
    : option num :=
  match fuel with
  | O => None
  | S fuel' =>
      if fx (a - k * Tau) <? lit 0
      then bracket_search fuel' fx a Tau (k + lit 1)
      else Some k
  end.

(** The assignment of [B] (the [if]/[else] after [var B = 0.0], lines
    104-112). *)
Definition bracket_B (fuel : nat) (fx : num -> num)
    (a Tau DSq deviationSq v : num) : option num :=
  if DSq >? deviationSq + v
  then Some (Math_log (DSq - deviationSq - v))
  else match bracket_search fuel fx a Tau (lit 1) with
       | Some k => Some (a - k * Tau)
       | None => None
       end.

(** [while (Math.abs(B - A) > 0.000001) { ... }] (lines 115-126): the
    value of [A] on exit, if the loop is left within [fuel] tests. *)
Fixpoint illinois (fuel : nat) (fx : num -> num) (A B fA fB : num)
    : option num :=
  match fuel with
  | O => None
  | S fuel' =>
      if Math_abs (B - A) >? lit (1 # 1000000)
      then
        let C := A + (A - B) * fA / (fB - fA) in
        let fC := fx C in
        if fC * fB <? lit 0
        then illinois fuel' fx B C fB fC
        else illinois fuel' fx A C (fA / lit 2) fC
      else Some A
  end.

(** Step 5 as a whole (lines 93-126): from [var a = ...] to the exit
    of the second loop; the result is the final [A]. *)
Definition solve_volatility (fuel : nat) (Tau TauSq : num)
    (D deviationSq v sigma : num) : option num :=
  let a := Math_log (Math_sq sigma) in
  let fx := f D deviationSq v a TauSq in
  let A := a in
  let DSq := Math_sq D in
  match bracket_B fuel fx a Tau DSq deviationSq v with
  | None => None
  | Some B => illinois fuel fx A B (fx A) (fx B)
  end.

(** *** calculateRating *)

(** The body of [calculateRating], with the two reads of the tunable
    made explicit: [Tau] is what the bracket search multiplies by, and
    [TauSq] is what [f] divides by. *)
Definition calculateRatingWith (Tau TauSq : num) (fuel : nat)
    (player : PlayerRating) (opponents : list PlayerRating)
    (outcomes : list num) : completion PlayerRating :=
  if negb (length opponents =? length outcomes)%nat then Throw err_lengths
  else if (length opponents =? 0)%nat
  then Normal (calculateRatingDidNotCompete player)
  else
    let player := toGlicko2Scale player in
    let opponents := map toGlicko2Scale opponents in
    let v := lit 1 / v_sum player opponents in
    let DSum := D_sum player opponents outcomes in
    let D := v * DSum in
    let deviationSq := Math_sq (deviation player) in
    match solve_volatility fuel Tau TauSq D deviationSq v (volatility player) with
    | None => OutOfFuel
    | Some A =>
        let newVolatility := Math_pow Math_E (A / lit 2) in
        let preRatingDeviation :=
          Math_sqrt (deviationSq + Math_sq newVolatility) in
        let newDeviation :=
          lit 1 / Math_sqrt (lit 1 / Math_sq preRatingDeviation + lit 1 / v) in
        let newRating := rating player + Math_sq newDeviation * DSum in
        Normal (toGlicko1Scale
                  {| rating := newRating;
                     deviation := newDeviation;
                     volatility := newVolatility |})
    end.

(** falseskill.ts: [const TauSq = Tau * Tau] is evaluated inside the
    function, at every call. *)
Definition calculateRating (e : Exports) :=
  calculateRatingWith (Tau e) (Tau e * Tau e).

(** What [calculateRating] returns for a call with opponents once the
    solver has left the value [A]: steps 2 to 4 (lines 66-90), the
    squared deviation (line 94), the new volatility (line 127) and
    steps 6 to 8 (lines 129-141), the solver between them taken out. *)
Definition rating_after_solver (player : PlayerRating)
    (opponents : list PlayerRating) (outcomes : list num) (A : num)
    : PlayerRating :=
  let player := toGlicko2Scale player in
  let opponents := map toGlicko2Scale opponents in
  let v := lit 1 / v_sum player opponents in
  let DSum := D_sum player opponents outcomes in
  let deviationSq := Math_sq (deviation player) in
  let newVolatility := Math_pow Math_E (A / lit 2) in
  let preRatingDeviation :=
    Math_sqrt (deviationSq + Math_sq newVolatility) in
  let newDeviation :=
    lit 1 / Math_sqrt (lit 1 / Math_sq preRatingDeviation + lit 1 / v) in
  let newRating := rating player + Math_sq newDeviation * DSum in
  toGlicko1Scale
    {| rating := newRating;
       deviation := newDeviation;
       volatility := newVolatility |}.

(** The transpiled AMD module: [var TauSq = exports.Tau * exports.Tau]
    is evaluated once, when the module body runs; the bracket search
    still reads [exports.Tau] at the call. *)
Record AmdModule : Type := {
  exports : Exports;
  TauSq   : num
}.

Definition amd_load : AmdModule :=
  {| exports := defaults; TauSq := Tau defaults * Tau defaults |}.

(** [falseskill.Tau = t] from outside the module. *)
Definition amd_assign_Tau (t : num) (m : AmdModule) : AmdModule :=
  {| exports := set_Tau t (exports m); TauSq := TauSq m |}.

Definition amd_calculateRating (m : AmdModule) :=
  calculateRatingWith (Tau (exports m)) (TauSq m).

(** *** Objects that are shared: the store *)

(** Rating objects are passed by reference and [updateRating] assigns
    their fields, so the in-place functions are modelled over a store
    of objects.  Two references are the same object exactly when they
    are the same location (the [===] of the source). *)
Definition loc : Type := nat.
Definition store : Type := loc -> PlayerRating.

Definition assign (h : store) (to : loc) (r : PlayerRating) : store :=
  fun l => if (l =? to)%nat then r else h l.

(** [copyRating(from, to)] assigns the three fields of [to]; [from] is
    read, here by value. *)
Definition copyRating (from : PlayerRating) (to : loc) (h : store) : store :=
  assign h to
    {| rating := rating from;
       deviation := deviation from;
       volatility := volatility from |}.

(** [calculateRating] reads [player] and the elements of [opponents]
    through their references at the time of the call. *)
Definition updateRating (e : Exports) (fuel : nat) (h : store)
    (player : loc) (opponents : list loc) (outcomes : list num)
    : store * completion unit :=
  match calculateRating e fuel (h player) (map h opponents) outcomes with
  | Normal r => (copyRating r player h, Normal tt)
  | Throw msg => (h, Throw msg)
  | OutOfFuel => (h, OutOfFuel)
  end.

Definition updateRatingDidNotCompete (h : store) (player : loc) : store :=
  copyRating (calculateRatingDidNotCompete (h player)) player h.

Record Match : Type := {
  player    : loc;
  opponents : list loc;
  outcomes  : list num
}.

(** [matches.forEach(match => updateRating(...))]: an exception leaves
    the loop, and the matches before it stay applied. *)
Fixpoint updateRatings (e : Exports) (fuel : nat) (h : store)
    (matches : list Match) : store * completion unit :=
  match matches with
  | [] => (h, Normal tt)
  | m :: rest =>
      match updateRating e fuel h (player m) (opponents m) (outcomes m) with
      | (h', Normal _) => updateRatings e fuel h' rest
      | (h', Throw msg) => (h', Throw msg)
      | (h', OutOfFuel) => (h', OutOfFuel)
      end
  end.

(** The store that the call of [updateRating] for the match at
    position [i] of the batch finds: the stores are threaded through
    the loop, so it is the one left by the calls before it.  [None]
    when one of those did not return. *)
Fixpoint store_before (e : Exports) (fuel : nat) (h : store)
    (matches : list Match) (i : nat) : option store :=
  match i, matches with
  | O, _ => Some h
  | S _, [] => None
  | S i', m :: rest =>
      match updateRating e fuel h (player m) (opponents m) (outcomes m) with
      | (h', Normal _) => store_before e fuel h' rest i'
      | _ => None
      end
  end.

(** The values that [calculateRating] is called with for the match at
    position [i]: what it observes of its player and its opponents. *)
Definition observed (e : Exports) (fuel : nat) (h : store)
    (matches : list Match) (i : nat)
    : option (PlayerRating * list PlayerRating) :=
  match store_before e fuel h matches i, nth_error matches i with
  | Some hi, Some m => Some (hi (player m), map hi (opponents m))
  | _, _ => None
  end.

(** *** deriveMatches *)

Record IndexedPlayer : Type := {
  rank    : nat;
  iplayer : loc
}.

(** The three variables that the first pair of loops assigns.  Every
    [indexedPlayer] object is created once and pushed once, so its
    identity is its position in [indexedPlayers]; [filteredPlayer]
    holds such a position. *)
Record Indexing : Type := {
  indexedPlayers        : list IndexedPlayer;
  playersAlreadyIndexed : list loc;
  filteredPlayer        : option nat
}.

(** [playersAlreadyIndexed.indexOf(player) >= 0] *)
Definition indexOf_found (player : loc) (l : list loc) : bool :=
  existsb (fun q => (q =? player)%nat) l.

(** The body of the inner [forEach]. *)
Definition index_player (filterBy : option loc) (rank : nat)
    (st : Indexing) (player : loc) : completion Indexing :=
  if indexOf_found player (playersAlreadyIndexed st)
  then Throw err_multiple_ranks
  else
    let indexedPlayer := {| rank := rank; iplayer := player |} in
    Normal
      {| indexedPlayers := indexedPlayers st ++ [indexedPlayer];
         playersAlreadyIndexed := playersAlreadyIndexed st ++ [player];
         filteredPlayer :=
           match filterBy with
           | Some fb =>
               if (player =? fb)%nat
               then Some (length (indexedPlayers st))
               else filteredPlayer st
           | None => filteredPlayer st
           end |}.

(** [players.forEach(player => ...)] *)
Fixpoint index_group (filterBy : option loc) (rank : nat)
    (players : list loc) (st : Indexing) : completion Indexing :=
  match players with
  | [] => Normal st
  | player :: rest =>
      match index_player filterBy rank st player with
      | Normal st' => index_group filterBy rank rest st'
      | Throw msg => Throw msg
      | OutOfFuel => OutOfFuel
      end
  end.

(** [rankings.forEach((players, rank) => ...)], from index [rank] on. *)
Fixpoint index_rankings (filterBy : option loc) (rank : nat)
    (rankings : list (list loc)) (st : Indexing) : completion Indexing :=
  match rankings with
  | [] => Normal st
  | players :: rest =>
      match index_group filterBy rank players st with
      | Normal st' => index_rankings filterBy (S rank) rest st'
      | Throw msg => Throw msg
      | OutOfFuel => OutOfFuel
      end
  end.

(** The body of the outer [forEach] of the second half: the match of
    one indexed player (given with its position) against all others. *)
Definition derive_match (indexed : list (nat * IndexedPlayer))
    (indexedPlayer : nat * IndexedPlayer) : Match :=
  let others :=
    filter (fun indexedOpponent =>
              negb (fst indexedPlayer =? fst indexedOpponent)%nat) indexed in
  {| player := iplayer (snd indexedPlayer);
     opponents := map (fun indexedOpponent => iplayer (snd indexedOpponent)) others;
     outcomes :=
       map (fun indexedOpponent =>
              if (rank (snd indexedPlayer) <? rank (snd indexedOpponent))%nat
              then Win
              else if (rank (snd indexedOpponent) <? rank (snd indexedPlayer))%nat
              then Loss
              else Draw) others |}.

Definition deriveMatches (rankings : list (list loc)) (filterBy : option loc)
    : completion (list Match) :=
  match index_rankings filterBy 0 rankings
          {| indexedPlayers := [];
             playersAlreadyIndexed := [];
             filteredPlayer := None |} with
  | Throw msg => Throw msg
  | OutOfFuel => OutOfFuel
  | Normal st =>
      let indexed :=
        combine (seq 0 (length (indexedPlayers st))) (indexedPlayers st) in
      match filterBy, filteredPlayer st with
      | Some _, None => Throw err_no_match
      | Some _, Some i =>
          Normal (map (derive_match indexed)
                      (filter (fun ip => (fst ip =? i)%nat) indexed))
      | None, _ => Normal (map (derive_match indexed) indexed)
      end
  end.

End FalseSkill.

Arguments Exports : clear implicits.
Arguments PlayerRating : clear implicits.
Arguments AmdModule : clear implicits.
Arguments Match : clear implicits.
Arguments store : clear implicits.

(** ** The two readings of the arithmetic *)

(** *** Exact arithmetic *)

#[export] Instance R_Arith : Arith R := {|
  lit := Q2R;
  add := Rplus;
  sub := Rminus;
  mul := Rmult;
  div := Rdiv;
  neg := Ropp;
  ltb := fun x y => if Rlt_dec x y then true else false;
  Math_abs := Rabs;
  Math_sqrt := R_sqrt.sqrt
|}.

(** [ln] is the logarithm on the positive reals and 0 elsewhere,
    where [Math.log] gives -Infinity (at 0) or NaN: the real numbers
    have no such values.  A statement in [R] speaks of the source
    where the logarithm is taken of a positive number (a volatility
    other than 0), or where it does not depend on the logarithm. *)
#[export] Instance R_MathLib : MathLib R := {|
  Math_PI := PI;
  Math_E := exp 1;
  Math_exp := exp;
  Math_log := ln;
  Math_pow := Rpower
|}.

(** *** IEEE-754 binary64 *)

Definition float_of_Z (z : Z) : float :=
  match z with
  | Z0 => PrimFloat.of_uint63 0
  | Zpos _ => PrimFloat.of_uint63 (Uint63.of_Z z)
  | Zneg p => PrimFloat.opp (PrimFloat.of_uint63 (Uint63.of_Z (Zpos p)))
  end.

(** A literal is read as the quotient of two integers below 2^53; the
    division rounds to nearest, as the parser of the source does. *)
#[export] Instance float_Arith : Arith float := {|
  lit := fun q => PrimFloat.div (float_of_Z (Qnum q)) (float_of_Z (Zpos (Qden q)));
  add := PrimFloat.add;
  sub := PrimFloat.sub;
  mul := PrimFloat.mul;
  div := PrimFloat.div;
  neg := PrimFloat.opp;
  ltb := PrimFloat.ltb;
  Math_abs := PrimFloat.abs;
  Math_sqrt := PrimFloat.sqrt
|}.

(** The engine's [Math.exp], [Math.log] and [Math.pow] are taken as
    given. *)
Definition float_MathLib (exp log : float -> float)
    (pow : float -> float -> float) : MathLib float := {|
  Math_PI := lit (3141592653589793 # 1000000000000000);
  Math_E := lit (2718281828459045 # 1000000000000000);
  Math_exp := exp;
  Math_log := log;
  Math_pow := pow
|}.

(** ** The match-quality estimator, in binary64

    [calculateMatchQuality] sorts with [Array.prototype.sort] and no
    comparator, which orders the elements by their [ToString] images,
    and it reads array elements that may be absent.  Both are facts of
    the machine numbers, so this part of the module is embedded over
    [float] only. *)

(** *** Number::toString (ECMA-262, 6.1.6.1.20)

    For a finite positive [x = m * 2^e] the digits are the shortest
    decimal [s * 10^(n-k)], [s] of [k] digits, that reads back as [x];
    of several the closest to [x] is taken. *)

Local Open Scope Z_scope.

(** [s * 10^p] compared with [M * 2^e2] *)
Definition cmp_dec_bin (s p M e2 : Z) : comparison :=
  (s * 10 ^ Z.max p 0 * 2 ^ Z.max (- e2) 0
   ?= M * 2 ^ Z.max e2 0 * 10 ^ Z.max (- p) 0).

(** [s * 10^p] lies in the interval that rounds to [m * 2^e] (to
    nearest, ties to the even significand) *)
Definition rounds_to (m e s p : Z) : bool :=
  let below := if (m =? 2 ^ 52) && (-1074 <? e) then 1 else 2 in
  match cmp_dec_bin s p (4 * m - below) (e - 2),
        cmp_dec_bin s p (4 * m + 2) (e - 2) with
  | Gt, Lt => true
  | Eq, Lt => Z.even m
  | Gt, Eq => Z.even m
  | _, _ => false
  end.

(** the least [n' >= n] with [m * 2^e < 10^n'], within [fuel] steps *)
Fixpoint decimal_exponent (fuel : nat) (m e n : Z) : Z :=
  match fuel with
  | O => n
  | S fuel' =>
      match cmp_dec_bin 1 n m e with
      | Gt => n
      | _ => decimal_exponent fuel' m e (n + 1)
      end
  end.

(** the decimal of [k] digits that reads back as [m * 2^e], if any,
    with its exponent [n] *)
Definition candidate (m e n k : Z) : option (Z * Z) :=
  let p := n - k in
  let s_lo := (m * 2 ^ Z.max e 0 * 10 ^ Z.max (- p) 0)
              / (2 ^ Z.max (- e) 0 * 10 ^ Z.max p 0) in
  let s_hi := s_lo + 1 in
  let hi := if s_hi =? 10 ^ k then (10 ^ (k - 1), n + 1) else (s_hi, n) in
  match rounds_to m e s_lo p, rounds_to m e s_hi p with
  | false, false => None
  | true, false => Some (s_lo, n)
  | false, true => Some hi
  | true, true =>
      match cmp_dec_bin (s_lo + s_hi) p (2 * m) e with
      | Gt => Some (s_lo, n)
      | Lt => Some hi
      | Eq => if Z.even s_lo then Some (s_lo, n) else Some hi
      end
  end.

Fixpoint shortest (fuel : nat) (m e n k : Z) : Z * Z * Z :=
  match fuel with
  | O => (m, k, n)
  | S fuel' =>
      match candidate m e n k with
      | Some (s, n') => (s, k, n')
      | None => shortest fuel' m e n (k + 1)
      end
  end.

Definition digit (d : Z) : ascii := ascii_of_nat (48 + Z.to_nat d).

Fixpoint digits (k : nat) (s : Z) : list ascii :=
  match k with
  | O => []
  | S k' => digit ((s / 10 ^ Z.of_nat k') mod 10) :: digits k' s
  end.

Fixpoint count_digits (fuel : nat) (z : Z) : nat :=
  match fuel with
  | O => 1%nat
  | S fuel' => if z <? 10 then 1%nat else S (count_digits fuel' (z / 10))
  end.

Definition zeros (n : Z) : list ascii := repeat "0"%char (Z.to_nat n).

(** the four layouts of the standard *)
Definition layout (s k n : Z) : list ascii :=
  let ds := digits (Z.to_nat k) s in
  if (k <=? n) && (n <=? 21) then ds ++ zeros (n - k)
  else if (0 <? n) && (n <=? 21)
  then firstn (Z.to_nat n) ds ++ ["."%char] ++ skipn (Z.to_nat n) ds
  else if (-6 <? n) && (n <=? 0)
  then ["0"; "."]%char ++ zeros (- n) ++ ds
  else
    let ex := ["e"%char; if 0 <? n - 1 then "+"%char else "-"%char]
              ++ digits (count_digits 4 (Z.abs (n - 1))) (Z.abs (n - 1)) in
    if k =? 1 then ds ++ ex
    else firstn 1 ds ++ ["."%char] ++ skipn 1 ds ++ ex.

Definition Number_toString (x : float) : string :=
  match Prim2SF x with
  | S754_nan => "NaN"
  | S754_zero _ => "0"
  | S754_infinity false => "Infinity"
  | S754_infinity true => "-Infinity"
  | S754_finite sgn m e =>
      let n0 := (e + Z.log2 (Zpos m)) * 30103 / 100000 - 1 in
      let '(s, k, n) :=
        shortest 17 (Zpos m) e (decimal_exponent 4 (Zpos m) e n0) 1 in
      string_of_list_ascii ((if sgn then ["-"%char] else []) ++ layout s k n)
  end.

Local Close Scope Z_scope.

(** *** Array.prototype.sort *)

(** A stable insertion sort by a strict order; the standard fixes the
    result of [sort], not the algorithm. *)
Fixpoint insert_sorted {A : Type} (lt : A -> A -> bool) (x : A) (l : list A)
    : list A :=
  match l with
  | [] => [x]
  | y :: l' => if lt y x then y :: insert_sorted lt x l' else x :: y :: l'
  end.

Definition sort_by {A : Type} (lt : A -> A -> bool) (l : list A) : list A :=
  fold_right (insert_sorted lt) [] l.

(** [sort()] without a comparator: [x] goes before [y] when
    [ToString(x)] is below [ToString(y)] by code units. *)
Definition default_lt (x y : float) : bool :=
  String.ltb (Number_toString x) (Number_toString y).

Definition Array_sort (l : list float) : list float := sort_by default_lt l.

(** *** calculateMatchQuality *)

Record MatchQuality : Type := {
  qualities : list float;
  min : float;
  max : float;
  avg : float;
  med : float;
  str : float
}.

(** An array read [arr[i]]: absent outside [0 .. length - 1]. *)
Definition array_get (arr : list float) (i : Z) : option float :=
  if (i <? 0)%Z then None else nth_error arr (Z.to_nat i).

(** [undefined] in an arithmetic position is NaN. *)
Definition ToNumber (x : option float) : float :=
  match x with
  | Some y => y
  | None => PrimFloat.nan
  end.

Section MatchQualityEstimator.
Variable pow : float -> float -> float.       (* the engine's Math.pow *)
Local Open Scope js_scope.

Definition calculateMatchQualityG1 (e : Exports float)
    (player opponent : PlayerRating float) : float :=
  let expectedScore :=
    lit 1 / (lit 1 + pow (lit 10) ((rating opponent - rating player)
                                    / (lit 2 * InitialDeviation e))) in
  (lit (5 # 10) - Math_abs (expectedScore - lit (5 # 10))) / lit (5 # 10).

(** The variables that the [forEach] of [calculateMatchQuality]
    assigns. *)
Record Tally : Type := {
  t_qualities : list float;
  t_min : float;
  t_max : float;
  t_sum : float;
  t_strongestOpponent : option (PlayerRating float);
  t_strongest : float
}.

Definition tally_opponent (e : Exports float) (player : PlayerRating float)
    (t : Tally) (opponent : PlayerRating float) : Tally :=
  let quality := calculateMatchQualityG1 e player opponent in
  let stronger :=
    match t_strongestOpponent t with
    | None => true
    | Some strongestOpponent => rating opponent >? rating strongestOpponent
    end in
  {| t_qualities := t_qualities t ++ [quality];
     t_min := if quality <? t_min t then quality else t_min t;
     t_max := if quality >? t_max t then quality else t_max t;
     t_sum := t_sum t + quality;
     t_strongestOpponent :=
       if stronger then Some opponent else t_strongestOpponent t;
     t_strongest := if stronger then quality else t_strongest t |}.

(** [var sortedQualities = qualities.slice(); sortedQualities.sort();
    var half = ..., median = ...].  An array holds fewer than 2^32
    elements, so [(length / 2) | 0] is the integer quotient. *)
Definition median_of (qualities : list float) : float :=
  let sortedQualities := Array_sort qualities in
  let half := Z.of_nat (length sortedQualities / 2) in
  if Nat.odd (length sortedQualities)
  then ToNumber (array_get sortedQualities half)
  else (ToNumber (array_get sortedQualities (half - 1)%Z)
        + ToNumber (array_get sortedQualities half)) / lit 2.

(** The body has no [throw]: every call reaches the [return]. *)
Definition calculateMatchQuality (e : Exports float)
    (player : PlayerRating float) (opponents : list (PlayerRating float))
    : completion MatchQuality :=
  let t :=
    fold_left (tally_opponent e player) opponents
      {| t_qualities := [];
         t_min := lit 1;
         t_max := lit 0;
         t_sum := lit 0;
         t_strongestOpponent := None;
         t_strongest := lit 0 |} in
  Normal
    {| qualities := t_qualities t;
       min := t_min t;
       max := t_max t;
       avg := t_sum t / float_of_Z (Z.of_nat (length opponents));
       med := median_of (t_qualities t);
       str := t_strongest t |}.

End MatchQualityEstimator.

(** ** Notions and inputs of the statements *)

Section Statements.
Local Open Scope js_scope.

(** *** The median of the specification *)

(** What the specification says of [med]: the list in ascending numeric
    order, its middle element, or the mean of its two middle elements. *)
Definition numeric_sort (l : list float) : list float :=
  sort_by PrimFloat.ltb l.

Definition spec_median (l : list float) : float :=
  let sorted := numeric_sort l in
  let half := (length sorted / 2)%nat in
  if Nat.odd (length sorted)
  then nth half sorted PrimFloat.nan
  else (nth (half - 1) sorted PrimFloat.nan + nth half sorted PrimFloat.nan)
       / lit 2.

(** *** Values of the engine's library *)

(** A [Math.pow] for the whole exponents from 0 on, by repeated
    multiplication; it is exact on the powers of ten up to 10^22, where
    the engines are exact too. *)
Fixpoint pow_nat (b : float) (n : nat) : float :=
  match n with
  | O => lit 1
  | S n' => b * pow_nat b n'
  end.

Definition pow_whole (b x : float) : float :=
  match Prim2SF x with
  | S754_zero _ => lit 1
  | S754_finite false m e =>
      if (0 <=? e)%Z then pow_nat b (Z.to_nat (Zpos m * 2 ^ e))
      else if (Zpos m mod 2 ^ (- e) =? 0)%Z
           then pow_nat b (Z.to_nat (Zpos m / 2 ^ (- e)))
           else PrimFloat.nan
  | _ => PrimFloat.nan
  end.

(** The exponent that [calculateMatchQualityG1] passes to [Math.pow]. *)
Definition G1_exponent (e : Exports float) (player opponent : PlayerRating float)
    : float :=
  (rating opponent - rating player) / (lit 2 * InitialDeviation e).

(** The doubles next to e^4 and to e^8. *)
Definition e_pow_4 : float := 0x1.b4c902e273a58p+5%float.
Definition e_pow_8 : float := 0x1.749ea7d470c6ep+11%float.

(** An engine for the run of [solve_volatility] on
    (phi^2 = 1/2, v = 1/2, Delta = 0, sigma = e_pow_4, tau = 8): the
    doubles nearest to the true values at the arguments that occur,
    log (sigma * sigma) = 8, E^0 = 1 and E^8 = e_pow_8 (and NaN at
    NaN). *)
Definition log_at_stall (y : float) : float :=
  if PrimFloat.eqb y (e_pow_4 * e_pow_4) then lit 8 else PrimFloat.nan.

Definition pow_at_stall (b x : float) : float :=
  if negb (PrimFloat.eqb b (lit (2718281828459045 # 1000000000000000)))
  then PrimFloat.nan
  else if PrimFloat.eqb x (lit 0) then lit 1
  else if PrimFloat.eqb x (lit 8) then e_pow_8
  else PrimFloat.nan.

Definition engine_at_stall : MathLib float :=
  float_MathLib (fun _ => PrimFloat.nan) log_at_stall pow_at_stall.

(** *** Rounding to nearest, ties to even *)


(** *** A run of the solver with a very small tau *)








(** *** The tolerance of the scale round trip *)

(** The tolerance 1e-9 of the specification. *)
Definition tolerance : float := lit (1 # 1000000000).

Definition within_tolerance (x y : float) : bool :=
  negb (tolerance <? Math_abs (x - y)).

Definition round_trip (r : PlayerRating float) : PlayerRating float :=
  toGlicko1Scale (toGlicko2Scale r).

(** *** Inputs *)

Definition rating_1e9 : PlayerRating float :=
  {| rating := lit 1000000000; deviation := lit 350; volatility := lit (6 # 100) |}.

Definition deviation_12345678 : PlayerRating float :=
  {| rating := lit 1500; deviation := lit 12345678; volatility := lit (6 # 100) |}.

Definition whole_rating (n m : nat) (sigma : float) : PlayerRating float :=
  {| rating := float_of_Z (Z.of_nat n);
     deviation := float_of_Z (Z.of_nat m);
     volatility := sigma |}.

Definition opponent_rated (r : Q) : PlayerRating float :=
  {| rating := lit r; deviation := lit 350; volatility := lit (6 # 100) |}.

(** A new player (1500) against two equals, one opponent 700 points
    and one 7000 points above. *)
Definition four_opponents : list (PlayerRating float) :=
  [opponent_rated 1500; opponent_rated 1500;
   opponent_rated 2200; opponent_rated 8500].

(** A store in which every object is a new rating. *)
Definition fresh_store : store R := fun _ => newRating defaults.

(** Player 0 sat the period out; player 1 won against player 0. *)
Definition two_matches : list (Match R) :=
  [ {| player := 0; opponents := []; outcomes := [] |};
    {| player := 1; opponents := [0]; outcomes := [Win] |} ].

(** The batch that [deriveMatches] gives for two players, the first
    ranked above the second. *)
Definition derived_batch : list (Match R) :=
  [ {| player := 0; opponents := [1]; outcomes := [Win] |};
    {| player := 1; opponents := [0]; outcomes := [Loss] |} ].

(** *** The f of the specification *)


(** *** The traversal of deriveMatches *)

(** The indexed players that the traversal of [rankings] creates, in
    the order of their creation: every player with the index of its
    group, counted from [rank]. *)
Fixpoint ranked (rank : nat) (rankings : list (list loc)) : list IndexedPlayer :=
  match rankings with
  | [] => []
  | players :: rest =>
      map (fun p => {| rank := rank; iplayer := p |}) players
      ++ ranked (S rank) rest
  end.

(** What the first pair of loops keeps true of its three variables:
    the two arrays go together, and [filteredPlayer] is the position of
    the filter among the players seen, if it was seen. *)
Definition indexing_ok (fb : option loc) (st : Indexing) : Prop :=
  playersAlreadyIndexed st = map iplayer (indexedPlayers st)
  /\ match fb, filteredPlayer st with
     | Some p, Some i => nth_error (indexedPlayers st) i <> None
                         /\ nth_error (playersAlreadyIndexed st) i = Some p
     | Some p, None => ~ In p (playersAlreadyIndexed st)
     | None, Some _ => False
     | None, None => True
     end.

(** *** The loop of calculateMatchQuality *)

(** What the loop of [calculateMatchQuality] keeps true of its
    variables, [seen] being the opponents it has visited. *)
Definition tally_ok (pow : float -> float -> float) (e : Exports float)
    (player : PlayerRating float) (seen : list (PlayerRating float))
    (t : Tally) : Prop :=
  t_qualities t = map (calculateMatchQualityG1 pow e player) seen
  /\ t_sum t = fold_left add (t_qualities t) (lit 0)
  /\ (forall x, In x (t_qualities t) -> (x <? t_min t) = false)
  /\ (t_min t = lit 1 \/ In (t_min t) (t_qualities t))
  /\ (forall x, In x (t_qualities t) -> (t_max t <? x) = false)
  /\ (t_max t = lit 0 \/ In (t_max t) (t_qualities t))
  /\ match t_strongestOpponent t with
     | None => seen = [] /\ t_strongest t = lit 0
     | Some s =>
         In s seen
         /\ t_strongest t = calculateMatchQualityG1 pow e player s
         /\ forall o, In o seen -> (rating s <? rating o) = false
     end.

(** A number that is neither NaN nor an infinity. *)
Definition is_finite_number (x : float) : bool :=
  match Prim2SF x with
  | S754_zero _ | S754_finite _ _ _ => true
  | _ => false
  end.

(** *** The two scales *)

(** The factor between the two scales, 173.7178. *)
Definition scale_factor : R := (1737178 / 10000)%R.

(** *** More inputs *)


(** Player 0 sat the period out; the match of player 1 names an
    opponent and no outcome. *)
Definition idle_then_ill_formed : list (Match R) :=
  [ {| player := 0; opponents := []; outcomes := [] |};
    {| player := 1; opponents := [0]; outcomes := [] |} ].

(** An opponent like a new player but for its volatility. *)
Definition erratic_opponent : PlayerRating R :=
  {| rating := InitialRating defaults;
     deviation := InitialDeviation defaults;
     volatility := 1%R |}.

End Statements.

(** * Properties *)

(** ** Facts that hold in every arithmetic *)

Section Generic.
Context {num : Type} {AR : Arith num} {ML : MathLib num}.
Local Open Scope js_scope.

Lemma calculateRatingWith_lengths (tau tauSq : num) fuel p
    (opps : list (PlayerRating num)) (outs : list num) :
  length opps <> length outs ->
  calculateRatingWith tau tauSq fuel p opps outs = Throw err_lengths.
Proof.
  intros Hne. unfold calculateRatingWith.
  destruct (Nat.eqb_spec (length opps) (length outs)) as [Heq | _].
  - contradiction.
  - reflexivity.
Qed.

Lemma calculateRatingWith_nil (tau tauSq : num) fuel (p : PlayerRating num) :
  calculateRatingWith tau tauSq fuel p [] [] =
  Normal (calculateRatingDidNotCompete p).
Proof. reflexivity. Qed.

(** [calculateRating] is its guards, then the solver, then the steps
    that [rating_after_solver] collects. *)
Lemma calculateRating_after_solver (e : Exports num) (fuel : nat)
    (p : PlayerRating num) (opps : list (PlayerRating num)) (outs : list num) :
  opps <> [] -> length opps = length outs ->
  calculateRating e fuel p opps outs
  = match
      solve_volatility fuel (Tau e) (Tau e * Tau e)
        (lit 1 / v_sum (toGlicko2Scale p) (map toGlicko2Scale opps)
         * D_sum (toGlicko2Scale p) (map toGlicko2Scale opps) outs)
        (Math_sq (deviation (toGlicko2Scale p)))
        (lit 1 / v_sum (toGlicko2Scale p) (map toGlicko2Scale opps))
        (volatility (toGlicko2Scale p))
    with
    | Some A => Normal (rating_after_solver p opps outs A)
    | None => OutOfFuel
    end.
Proof.
  intros Hne Hlen. unfold calculateRating, calculateRatingWith.
  rewrite Hlen, Nat.eqb_refl. cbn [negb].
  destruct (Nat.eqb_spec (length outs) 0) as [H0 | _].
  { destruct opps; [now destruct Hne | simpl in Hlen; lia]. }
  destruct (solve_volatility _ _ _ _ _ _ _); reflexivity.
Qed.

(** The transpiled module takes the same shortcut. *)
Lemma amd_calculateRating_without_opponents (m : AmdModule num) fuel p :
  amd_calculateRating m fuel p [] [] = Normal (calculateRatingDidNotCompete p).
Proof. apply calculateRatingWith_nil. Qed.

(** C6: with lists of different lengths [updateRating] ends in the
    length error of [calculateRating], and the store is the one it was
    given: no field of the player (or of any object) is assigned. *)
Theorem updateRating_length_mismatch (e : Exports num) fuel (h : store num)
    (p : loc) (opps : list loc) (outs : list num) :
  length opps <> length outs ->
  updateRating e fuel h p opps outs = (h, Throw err_lengths).
Proof.
  intros Hne. unfold updateRating, calculateRating.
  rewrite calculateRatingWith_lengths.
  - reflexivity.
  - rewrite length_map. exact Hne.
Qed.

(** *** The bracket search, in every arithmetic *)


(** *** deriveMatches: the duplicate check *)

Lemma indexOf_found_In (p : loc) (l : list loc) :
  indexOf_found p l = true <-> In p l.
Proof.
  unfold indexOf_found. rewrite existsb_exists. split.
  - intros [q [Hq Heq]]. apply Nat.eqb_eq in Heq. now subst.
  - intros Hin. exists p. split; [exact Hin | apply Nat.eqb_refl].
Qed.

Lemma NoDup_snoc (l : list loc) (p : loc) :
  NoDup l -> ~ In p l -> NoDup (l ++ [p]).
Proof.
  induction l as [| x l IH]; simpl; intros Hnd Hnot.
  - constructor; [intros [] | constructor].
  - inversion Hnd as [| ? ? Hx Hl]; subst. constructor.
    + rewrite in_app_iff. simpl. intros [H | [H | []]]; [auto | subst; auto].
    + apply IH; auto.
Qed.

(** The players already traversed, and only they, are what a new
    player is compared with; a group is left normally exactly when it
    brings no repetition. *)
Lemma index_group_spec (fb : option loc) (rk : nat) (players : list loc) :
  forall st : Indexing,
    match index_group fb rk players st with
    | Normal st' =>
        playersAlreadyIndexed st' = playersAlreadyIndexed st ++ players
        /\ (NoDup (playersAlreadyIndexed st) ->
            NoDup (playersAlreadyIndexed st ++ players))
    | Throw msg =>
        msg = err_multiple_ranks
        /\ ~ NoDup (playersAlreadyIndexed st ++ players)
    | OutOfFuel => False
    end.
Proof.
  induction players as [| p rest IH]; intros st; simpl.
  - rewrite app_nil_r. auto.
  - unfold index_player.
    destruct (indexOf_found p (playersAlreadyIndexed st)) eqn:Hfound.
    + split; [reflexivity |].
      apply indexOf_found_In in Hfound. intros Hnd.
      apply NoDup_remove_2 in Hnd. apply Hnd.
      apply in_or_app. now left.
    + assert (Hnot : ~ In p (playersAlreadyIndexed st)).
      { intros Hin. apply indexOf_found_In in Hin. congruence. }
      match goal with
      | |- context [index_group fb rk rest ?s] => specialize (IH s)
      end.
      destruct (index_group fb rk rest _) as [st' | msg |]; simpl in IH.
      * destruct IH as [Heq Hnd]. rewrite <- app_assoc in *. simpl in *.
        split; [exact Heq |]. intros H0. apply Hnd.
        now apply NoDup_snoc.
      * destruct IH as [Heq Hnd]. rewrite <- app_assoc in Hnd. simpl in Hnd.
        split; assumption.
      * exact IH.
Qed.

Lemma index_rankings_spec (fb : option loc) (rankings : list (list loc)) :
  forall (rk : nat) (st : Indexing),
    match index_rankings fb rk rankings st with
    | Normal st' =>
        playersAlreadyIndexed st' = playersAlreadyIndexed st ++ concat rankings
        /\ (NoDup (playersAlreadyIndexed st) ->
            NoDup (playersAlreadyIndexed st ++ concat rankings))
    | Throw msg =>
        msg = err_multiple_ranks
        /\ ~ NoDup (playersAlreadyIndexed st ++ concat rankings)
    | OutOfFuel => False
    end.
Proof.
  induction rankings as [| players rest IH]; intros rk st; simpl.
  - rewrite app_nil_r. auto.
  - pose proof (index_group_spec fb rk players st) as Hg.
    destruct (index_group fb rk players st) as [st1 | msg |]; simpl in Hg.
    + destruct Hg as [Heq1 Hnd1].
      specialize (IH (S rk) st1).
      destruct (index_rankings fb (S rk) rest st1) as [st2 | msg |].
      * destruct IH as [Heq2 Hnd2]. rewrite Heq1, <- app_assoc in *.
        split; [exact Heq2 | auto].
      * destruct IH as [Hmsg Hnd2]. rewrite Heq1, <- app_assoc in Hnd2.
        split; assumption.
      * exact IH.
    + destruct Hg as [Hmsg Hnd]. split; [exact Hmsg |].
      intros H0. apply Hnd. rewrite app_assoc in H0.
      now apply NoDup_app_remove_r in H0.
    + exact Hg.
Qed.

(** A repetition anywhere in the traversal ends [deriveMatches] in the
    duplicate error, and nothing else does. *)
Lemma deriveMatches_throws_iff_repetition (rankings : list (list loc))
    (filterBy : option loc) :
  deriveMatches (num := num) rankings filterBy = Throw err_multiple_ranks
  <-> ~ NoDup (concat rankings).
Proof.
  unfold deriveMatches.
  match goal with
  | |- context [index_rankings filterBy 0 rankings ?s] =>
      pose proof (index_rankings_spec filterBy rankings 0 s) as Hspec
  end.
  destruct (index_rankings filterBy 0 rankings _) as [st | msg |];
    simpl in Hspec.
  - destruct Hspec as [_ Hnd]. specialize (Hnd (NoDup_nil _)).
    split.
    + destruct filterBy as [fb |]; [destruct (filteredPlayer st) |];
        intros H0; discriminate H0.
    + intros Hdup. contradiction.
  - destruct Hspec as [-> Hnd]. split; [intros _; exact Hnd | reflexivity].
  - contradiction.
Qed.

Lemma repetition_in_group (rankings : list (list loc)) (group : list loc) :
  In group rankings -> NoDup (concat rankings) -> NoDup group.
Proof.
  induction rankings as [| g rest IH]; simpl; [tauto |].
  intros [-> | Hin] Hnd.
  - now apply NoDup_app_remove_r in Hnd.
  - apply IH; [exact Hin |]. now apply NoDup_app_remove_l in Hnd.
Qed.

(** C10: [deriveMatches] ends in the duplicate-player error when one
    player object stands at two positions of a single rank group, and
    more generally whenever the traversal of the groups, taken as one
    sequence, meets an object a second time. *)
Theorem deriveMatches_duplicate_within_group (rankings : list (list loc))
    (filterBy : option loc) :
  (exists group p i j,
      In group rankings /\ i <> j
      /\ nth_error group i = Some p /\ nth_error group j = Some p)
  \/ ~ NoDup (concat rankings) ->
  deriveMatches (num := num) rankings filterBy = Throw err_multiple_ranks.
Proof.
  intros H. apply deriveMatches_throws_iff_repetition.
  destruct H as [(group & p & i & j & Hin & Hij & Hi & Hj) | H];
    [| exact H].
  intros Hnd. apply (repetition_in_group _ _ Hin) in Hnd.
  apply Hij. rewrite NoDup_nth_error in Hnd. apply Hnd.
  - apply nth_error_Some. congruence.
  - congruence.
Qed.

(** *** updateRatings: one store, threaded through the batch *)

Lemma copyRating_same (r : PlayerRating num) (to : loc) (h : store num) :
  copyRating r to h to = r.
Proof.
  unfold copyRating, assign. rewrite Nat.eqb_refl. now destruct r.
Qed.

Lemma copyRating_other (r : PlayerRating num) (to l : loc) (h : store num) :
  l <> to -> copyRating r to h l = h l.
Proof.
  intros Hne. unfold copyRating, assign.
  now destruct (Nat.eqb_spec l to).
Qed.

(** One call either assigns the computed rating to its player or
    leaves the store alone. *)
Lemma updateRating_cases (e : Exports num) fuel (h : store num) (m : Match num) :
  (exists r,
      calculateRating e fuel (h (player m)) (map h (opponents m)) (outcomes m)
      = Normal r
      /\ updateRating e fuel h (player m) (opponents m) (outcomes m)
         = (copyRating r (player m) h, Normal tt))
  \/ (exists c,
         updateRating e fuel h (player m) (opponents m) (outcomes m) = (h, c)
         /\ forall u, c <> Normal u).
Proof.
  unfold updateRating.
  destruct (calculateRating e fuel (h (player m)) (map h (opponents m))
              (outcomes m)) as [r | msg |].
  - left. exists r. auto.
  - right. exists (Throw msg). split; [reflexivity | discriminate].
  - right. exists OutOfFuel. split; [reflexivity | discriminate].
Qed.

Lemma store_before_cons (e : Exports num) fuel (h : store num)
    (m : Match num) (rest : list (Match num)) (i : nat) (hi : store num) :
  store_before e fuel h (m :: rest) (S i) = Some hi ->
  exists r,
    calculateRating e fuel (h (player m)) (map h (opponents m)) (outcomes m)
    = Normal r
    /\ store_before e fuel (copyRating r (player m) h) rest i = Some hi.
Proof.
  simpl. destruct (updateRating_cases e fuel h m) as [(r & Hr & Hu) | (c & Hu & Hc)];
    rewrite Hu.
  - intros H. exists r. auto.
  - destruct c as [u | msg |]; [destruct (Hc u eq_refl) | discriminate ..].
Qed.

(** The loop of [updateRatings] returns exactly when every call
    returned, and then leaves the store that a further match would
    find. *)
Lemma updateRatings_store_before (e : Exports num) fuel
    (matches : list (Match num)) :
  forall h h' : store num,
    updateRatings e fuel h matches = (h', Normal tt)
    <-> store_before e fuel h matches (length matches) = Some h'.
Proof.
  induction matches as [| m rest IH]; intros h h'; simpl.
  - split; intros H0; inversion H0; reflexivity.
  - destruct (updateRating_cases e fuel h m) as [(r & Hr & Hu) | (c & Hu & Hc)];
      rewrite Hu.
    + apply IH.
    + destruct c as [u | msg |]; [destruct (Hc u eq_refl) | |];
        split; discriminate.
Qed.

(** An object that is the player of no earlier match is found as it
    was before the batch. *)
Lemma store_before_frame (e : Exports num) fuel (o : loc) :
  forall (i : nat) (matches : list (Match num)) (h hi : store num),
    store_before e fuel h matches i = Some hi ->
    (forall j mj, j < i -> nth_error matches j = Some mj -> player mj <> o) ->
    hi o = h o.
Proof.
  induction i as [| i IH]; intros matches h hi Hs Hfresh.
  - simpl in Hs. destruct matches; now inversion Hs.
  - destruct matches as [| m rest]; [discriminate |].
    apply store_before_cons in Hs as (r & _ & Hs).
    rewrite (IH rest _ hi Hs).
    + apply copyRating_other. intros Heq.
      apply (Hfresh 0 m); [lia | reflexivity | now symmetry].
    + intros j mj Hj Hnth. apply (Hfresh (S j) mj); [lia | exact Hnth].
Qed.

(** An object that was the player of an earlier match is found as
    that match (the last such) left it: with the rating that
    [calculateRating] returned for it. *)
Lemma store_before_updated (e : Exports num) fuel :
  forall (i j : nat) (matches : list (Match num)) (h hi : store num)
         (mj : Match num),
    store_before e fuel h matches i = Some hi ->
    j < i -> nth_error matches j = Some mj ->
    (forall k mk, j < k < i -> nth_error matches k = Some mk ->
                  player mk <> player mj) ->
    exists hj r,
      store_before e fuel h matches j = Some hj
      /\ calculateRating e fuel (hj (player mj)) (map hj (opponents mj))
           (outcomes mj) = Normal r
      /\ hi (player mj) = r.
Proof.
  induction i as [| i IH]; intros j matches h hi mj Hs Hji Hnth Hlast;
    [lia |].
  destruct matches as [| m rest]; [discriminate |].
  apply store_before_cons in Hs as (r & Hr & Hs).
  destruct j as [| j].
  - simpl in Hnth. inversion Hnth; subst mj.
    exists h, r. split; [reflexivity | split; [exact Hr |]].
    rewrite (store_before_frame e fuel (player m) i rest _ hi Hs).
    + apply copyRating_same.
    + intros k mk Hk Hnthk. apply (Hlast (S k) mk); [lia | exact Hnthk].
  - simpl in Hnth.
    destruct (IH j rest _ hi mj Hs) as (hj & r' & Hsj & Hr' & Hval);
      [lia | exact Hnth | |].
    + intros k mk Hk Hnthk. apply (Hlast (S k) mk); [lia | exact Hnthk].
    + exists hj, r'. split; [| split; assumption].
      simpl.
      destruct (updateRating_cases e fuel h m) as [(r0 & Hr0 & Hu) | (c & Hu & Hc)].
      * rewrite Hu. rewrite Hr in Hr0. inversion Hr0; subst r0. exact Hsj.
      * unfold updateRating in Hu. rewrite Hr in Hu. inversion Hu; subst c.
        destruct (Hc tt eq_refl).
Qed.

(** C4, as the code has it: [updateRatings] applies [updateRating] to
    the matches in list order over one store.  The computation of the
    match at position [i] reads its player and its opponents from the
    store left by the matches before it, so an opponent that was the
    player of an earlier match is observed with the rating that match
    assigned; only an opponent that is the player of no earlier match
    is observed as it was before the batch. *)
Theorem updateRatings_in_order_on_shared_store (e : Exports num) fuel
    (h : store num) (matches : list (Match num)) :
  (forall h', updateRatings e fuel h matches = (h', Normal tt)
              <-> store_before e fuel h matches (length matches) = Some h')
  /\ forall i hi m,
       store_before e fuel h matches i = Some hi ->
       nth_error matches i = Some m ->
       observed e fuel h matches i
       = Some (hi (player m), map hi (opponents m))
       /\ (forall o,
              (forall j mj, j < i -> nth_error matches j = Some mj ->
                            player mj <> o) ->
              hi o = h o)
       /\ (forall j mj,
              j < i -> nth_error matches j = Some mj ->
              (forall k mk, j < k < i -> nth_error matches k = Some mk ->
                            player mk <> player mj) ->
              exists hj r,
                store_before e fuel h matches j = Some hj
                /\ calculateRating e fuel (hj (player mj))
                     (map hj (opponents mj)) (outcomes mj) = Normal r
                /\ hi (player mj) = r).
Proof.
  split; [intros h'; apply updateRatings_store_before |].
  intros i hi m Hs Hnth. split; [| split].
  - unfold observed. now rewrite Hs, Hnth.
  - intros o Hfresh. now apply (store_before_frame e fuel o i matches).
  - intros j mj Hj Hnthj Hlast.
    now apply (store_before_updated e fuel i j matches h).
Qed.

End Generic.

(** ** Facts of exact arithmetic *)

Section Exact.
Local Open Scope R_scope.

(** The operations of the interface, read in [R]. *)
Ltac in_R :=
  cbn [lit add sub mul div neg ltb Math_abs Math_sqrt R_Arith
       Math_PI Math_E Math_exp Math_log Math_pow R_MathLib] in *.

Lemma pow_E_exp (x : R) : Rpower (exp 1) x = exp x.
Proof. unfold Rpower. rewrite ln_exp. f_equal. lra. Qed.

Lemma ltb_R_true (x y : R) : ltb x y = true <-> x < y.
Proof. in_R. destruct (Rlt_dec x y); split; auto; discriminate. Qed.

Lemma ltb_R_false (x y : R) : ltb x y = false <-> ~ x < y.
Proof. in_R. destruct (Rlt_dec x y); split; auto; try discriminate; tauto. Qed.

(** [f] as the formula it computes. *)
Lemma f_R (D deviationSq v a tauSq x : R) :
  f D deviationSq v a tauSq x =
  exp x * (D * D - deviationSq - v - exp x)
    / ((2 * (deviationSq + v + exp x)) * (2 * (deviationSq + v + exp x)))
  - (x - a) / tauSq.
Proof.
  unfold f, Math_sq. in_R. rewrite pow_E_exp.
  replace (Q2R 2) with 2 by (unfold Q2R; simpl; lra).
  reflexivity.
Qed.



Lemma lit_R_0 : Q2R 0 = 0.
Proof. unfold Q2R. simpl. lra. Qed.

Lemma lit_R_1 : Q2R 1 = 1.
Proof. unfold Q2R. simpl. lra. Qed.

(** The interface read in [R], with the literals 0 and 1 evaluated. *)
Ltac exact_arith := in_R; rewrite ?lit_R_0, ?lit_R_1 in *.

(** *** The search for the bracket endpoint *)

(** What the loop has tested when it is left: the trial points before
    the exit were negative, the one at the exit is not. *)
Lemma bracket_search_exit (fx : R -> R) (a tau : R) :
  forall (fuel : nat) (k r : R),
    bracket_search fuel fx a tau k = Some r ->
    exists n : nat,
      r = k + INR n
      /\ ~ fx (a - r * tau) < 0
      /\ forall j : nat, (j < n)%nat -> fx (a - (k + INR j) * tau) < 0.
Proof.
  induction fuel as [| fuel IH]; intros k r H; [discriminate |].
  cbn [bracket_search] in H.
  destruct (ltb (fx (sub a (mul k tau))) (lit 0)) eqn:Htest.
  - apply IH in H as (n & Hr & Hexit & Hbefore).
    apply ltb_R_true in Htest. exact_arith.
    exists (S n). rewrite S_INR. split; [lra | split; [exact Hexit |]].
    intros [| j] Hj.
    + simpl. now rewrite Rplus_0_r.
    + rewrite S_INR. replace (k + (INR j + 1)) with (k + 1 + INR j) by lra.
      apply Hbefore. lia.
  - inversion H; subst r. apply ltb_R_false in Htest. exact_arith.
    exists 0%nat. simpl. rewrite Rplus_0_r.
    split; [reflexivity | split; [exact Htest | intros j Hj; lia]].
Qed.









(** *** The tunable and the two builds *)

(** The source reads [Tau] when it is called: both the step of the
    bracket search and the [tau^2] of [f] follow an assignment. *)
Lemma calculateRating_reads_Tau (t : R) (e : Exports R) :
  calculateRating (set_Tau t e) = calculateRatingWith t (t * t).
Proof. reflexivity. Qed.

(** C5 on the transpiled module (failing input): load the module, then
    assign [Tau = 1/2].  The call multiplies by the new [Tau = 1/2] in
    the bracket search, but [f] still divides by the [TauSq = 9/16]
    computed from the default 0.75 when the module was loaded, not by
    1/4; and the two disagree at every [x] other than [a]. *)
Theorem amd_volatility_solve_keeps_old_TauSq :
  let m := amd_assign_Tau (1 / 2) (amd_load (num := R)) in
  Tau (exports m) = 1 / 2
  /\ TauSq m = 9 / 16
  /\ (forall fuel p opps outs,
         amd_calculateRating m fuel p opps outs
         = calculateRatingWith (1 / 2) (9 / 16) fuel p opps outs)
  /\ (forall fuel p opps outs,
         calculateRating (set_Tau (1 / 2) defaults) fuel p opps outs
         = calculateRatingWith (1 / 2) (1 / 2 * (1 / 2)) fuel p opps outs)
  /\ forall D deviationSq v a x,
       x <> a ->
       f D deviationSq v a (TauSq m) x
       <> f D deviationSq v a (1 / 2 * (1 / 2)) x.
Proof.
  assert (Hsq : TauSq (amd_assign_Tau (1 / 2) (amd_load (num := R))) = 9 / 16).
  { cbn [TauSq amd_assign_Tau amd_load Tau defaults]. in_R.
    unfold Q2R. simpl. lra. }
  cbv zeta. split; [reflexivity | split; [exact Hsq | split; [| split]]].
  - intros fuel p opps outs. unfold amd_calculateRating. now rewrite Hsq.
  - reflexivity.
  - intros D deviationSq v a x Hx. rewrite Hsq, !f_R. intros Heq.
    assert ((x - a) / (9 / 16) = (x - a) / (1 / 2 * (1 / 2))) by lra.
    apply Hx. lra.
Qed.

(** *** The second loop in exact arithmetic *)

(** Once the moving endpoint sits on an exact zero of [fx], every
    further pass computes the same endpoint again and only halves
    [fA]: in exact arithmetic [fA] never becomes zero and the distance
    to [A] never shrinks. *)
Lemma illinois_stalls_on_zero (fx : R -> R) (A B : R) :
  fx B = 0 -> 1 / 1000000 < Rabs (B - A) ->
  forall (fuel : nat) (B' fA fB' : R),
    B' = B -> fB' = 0 -> fA <> 0 ->
    illinois fuel fx A B' fA fB' = None.
Proof.
  intros Hzero Hfar. induction fuel as [| fuel IH]; intros B' fA fB' -> -> HfA;
    [reflexivity |].
  cbn [illinois].
  assert (Hloop : ltb (lit (1 # 1000000)) (Math_abs (sub B A)) = true).
  { apply ltb_R_true. in_R. unfold Q2R. simpl. lra. }
  rewrite Hloop.
  assert (HC : add A (div (mul (sub A B) fA) (sub 0 fA)) = B).
  { in_R. field. lra. }
  rewrite HC, Hzero.
  assert (Hsign : ltb (mul 0 0) (lit 0) = false).
  { apply ltb_R_false. exact_arith. lra. }
  rewrite Hsign. apply IH; try reflexivity.
  in_R. unfold Q2R. simpl. lra.
Qed.

(** A valid input on which the solver of the model never returns:
    phi^2 = 1/2, v = 1/2, Delta = 0, sigma = e^4, tau = 8.  Here
    a = 8, the bracket search is left at k = 1 with B = 0, and
    f(0) = -2/16 + 8/64 is exactly zero. *)
Lemma solve_volatility_exact_stall :
  forall fuel : nat,
    solve_volatility fuel 8 (8 * 8) 0 (1 / 2) (1 / 2) (exp 4) = None.
Proof.
  intros fuel. unfold solve_volatility.
  assert (Ha : Math_log (Math_sq (exp 4)) = 8).
  { unfold Math_sq. in_R. rewrite <- exp_plus, ln_exp. lra. }
  rewrite Ha.
  set (fx := f 0 (1 / 2) (1 / 2) 8 (8 * 8)).
  assert (Hf0 : forall z, z = 0 -> fx z = 0).
  { intros z ->. unfold fx. rewrite f_R, exp_0. field. }
  assert (Hf8 : fx 8 <> 0).
  { unfold fx. rewrite f_R. pose proof (exp_pos 8) as Hu.
    set (u := exp 8) in *.
    replace ((8 - 8) / (8 * 8)) with 0 by field.
    assert (0 < (2 * (1 / 2 + 1 / 2 + u)) * (2 * (1 / 2 + 1 / 2 + u))) by nra.
    assert (0 < (u * (u + 1)) / ((2 * (1 / 2 + 1 / 2 + u)) * (2 * (1 / 2 + 1 / 2 + u))))
      by (apply Rdiv_lt_0_compat; nra).
    replace (u * (0 * 0 - 1 / 2 - 1 / 2 - u)) with (- (u * (u + 1))) by field.
    unfold Rdiv in *. rewrite <- Ropp_mult_distr_l. lra. }
  unfold bracket_B, Math_sq.
  assert (Hbranch : ltb (add (1 / 2) (1 / 2)) (mul 0 0) = false)
    by (apply ltb_R_false; in_R; lra).
  rewrite Hbranch.
  destruct fuel as [| fuel]; [reflexivity |].
  cbn [bracket_search].
  assert (HB : sub 8 (mul (lit 1) 8) = 0) by (exact_arith; lra).
  assert (Htest : ltb (fx (sub 8 (mul (lit 1) 8))) (lit 0) = false).
  { apply ltb_R_false. rewrite (Hf0 _ HB). exact_arith. lra. }
  rewrite Htest.
  apply (illinois_stalls_on_zero fx 8 0).
  - now apply Hf0.
  - rewrite Rabs_left by lra. lra.
  - exact HB.
  - now apply Hf0.
  - exact Hf8.
Qed.

(** *** The scale conversions in exact arithmetic *)

Lemma scale_round_trip_exact (r : PlayerRating R) :
  toGlicko1Scale (toGlicko2Scale r) = r.
Proof.
  destruct r as [mu phi sigma]. unfold toGlicko1Scale, toGlicko2Scale.
  cbn [rating deviation volatility]. in_R. unfold Q2R. simpl.
  f_equal; field.
Qed.

(** *** A batch whose second match sees the first one's update *)

Lemma inflated_deviation :
  Q2R 350 <
  Q2R (1737178 # 10000)
  * R_sqrt.sqrt (Q2R 350 / Q2R (1737178 # 10000) * (Q2R 350 / Q2R (1737178 # 10000))
          + Q2R (6 # 100) * Q2R (6 # 100)).
Proof.
  set (c := Q2R (1737178 # 10000)). set (y := Q2R (6 # 100)).
  assert (Hc : 0 < c) by (unfold c, Q2R; simpl; lra).
  assert (Hy : 0 < y) by (unfold y, Q2R; simpl; lra).
  assert (H350 : Q2R 350 = 350) by (unfold Q2R; simpl; lra).
  rewrite H350.
  set (x := 350 / c).
  assert (Hx : 0 < x) by (apply Rdiv_lt_0_compat; lra).
  assert (Hsqrt : x < R_sqrt.sqrt (x * x + y * y)).
  { rewrite <- (sqrt_square x) at 1 by lra.
    apply sqrt_lt_1_alt. nra. }
  replace 350 with (c * x) at 1 by (unfold x; field; lra).
  apply Rmult_lt_compat_l; assumption.
Qed.

(** C4, as the specification has it, fails on this batch: the call for
    the second match finds player 0, its opponent, with the deviation
    that the first match of the same batch assigned, not with the one
    it had before the batch. *)
Lemma updateRatings_second_match_sees_update :
  exists hi : store R,
    store_before defaults 0 fresh_store two_matches 1 = Some hi
    /\ observed defaults 0 fresh_store two_matches 1
       = Some (hi 1%nat, [hi 0%nat])
    /\ deviation (fresh_store 0%nat) < deviation (hi 0%nat)
    /\ [hi 0%nat] <> [fresh_store 0%nat].
Proof.
  eexists. split; [reflexivity | split; [reflexivity |]].
  assert (Hlt : deviation (fresh_store 0%nat)
                < deviation
                    (copyRating (calculateRatingDidNotCompete (fresh_store 0%nat))
                       0%nat fresh_store 0%nat)).
  { rewrite copyRating_same. exact inflated_deviation. }
  split; [exact Hlt |].
  intros Heq.
  apply (f_equal (fun l => deviation (hd (fresh_store 0%nat) l))) in Heq.
  assert (Hd : deviation
                 (copyRating (calculateRatingDidNotCompete (fresh_store 0%nat))
                    0%nat fresh_store 0%nat)
               = deviation (fresh_store 0%nat)) by exact Heq.
  rewrite Hd in Hlt. lra.
Qed.

Lemma updateRatings_in_order_on_shared_store_witness :
  exists hi : store R,
    store_before defaults 0 fresh_store two_matches 1 = Some hi
    /\ exists hj r,
         store_before defaults 0 fresh_store two_matches 0 = Some hj
         /\ calculateRating defaults 0 (hj 0%nat) (map hj []) [] = Normal r
         /\ hi 0%nat = r.
Proof.
  eexists. split; [reflexivity |].
  refine (proj2 (proj2 (proj2
            (updateRatings_in_order_on_shared_store defaults 0 fresh_store
               two_matches)
            1%nat _ _ eq_refl eq_refl))
          0%nat _ _ eq_refl _).
  - apply Nat.lt_0_1.
  - intros k mk [Hlo Hhi]. exfalso.
    exact (Nat.lt_irrefl 1 (Nat.le_lt_trans _ _ _ Hlo Hhi)).
Defined.

Lemma amd_volatility_solve_keeps_old_TauSq_witness :
  f 0 1 1 0 (TauSq (amd_assign_Tau (1 / 2) (amd_load (num := R)))) 1
  <> f 0 1 1 0 (1 / 2 * (1 / 2)) 1.
Proof.
  apply (proj2 (proj2 (proj2 (proj2 amd_volatility_solve_keeps_old_TauSq)))).
  apply R1_neq_R0.
Defined.

Lemma g_pos (x : R) : 0 < g x.
Proof.
  unfold g, PiSq, Math_sq. in_R. rewrite lit_R_1.
  assert (Hpi : 0 < PI * PI) by (pose proof PI_RGT_0; nra).
  assert (H3 : Q2R 3 = 3) by (unfold Q2R; simpl; lra).
  rewrite H3.
  assert (0 <= 3 * (x * x) / (PI * PI)).
  { apply Rmult_le_pos; [nra | left; now apply Rinv_0_lt_compat]. }
  apply Rdiv_lt_0_compat; [lra |]. apply sqrt_lt_R0. lra.
Qed.

Lemma E_of_equals (mu d : R) : E mu mu d = 1 / 2.
Proof.
  unfold E. in_R. rewrite lit_R_1.
  replace (- g d * (mu - mu)) with 0 by ring.
  rewrite exp_0. lra.
Qed.

(** A win against an opponent of the same rating raises the rating,
    whatever volatility the solver returns. *)
Lemma win_against_equal_raises_rating (fuel : nat) (p o r : PlayerRating R) :
  rating o = rating p ->
  calculateRating defaults fuel p [o] [Win] = Normal r ->
  rating p < rating r.
Proof.
  intros Hsame Hcalc. unfold calculateRating, calculateRatingWith in Hcalc.
  cbn [length Nat.eqb negb map] in Hcalc.
  destruct (solve_volatility _ _ _ _ _ _ _) as [A |]; [| discriminate].
  inversion Hcalc as [Hr]. clear Hcalc Hr r.
  cbn [rating toGlicko1Scale].
  unfold D_sum, v_sum. cbn [combine fold_left].
  assert (Hmu : rating (toGlicko2Scale o) = rating (toGlicko2Scale p)).
  { unfold toGlicko2Scale. cbn [rating]. now rewrite Hsame. }
  rewrite Hmu, !E_of_equals.
  set (gd := g (deviation (toGlicko2Scale o))).
  assert (Hg : 0 < gd) by apply g_pos.
  unfold Win, Math_sq, toGlicko2Scale.
  cbn [rating deviation volatility]. exact_arith.
  match goal with
  | |- context [Rpower (exp 1) ?t] => set (nv := Rpower (exp 1) t)
  end.
  match goal with
  | |- context [R_sqrt.sqrt (?d + nv * nv)] =>
      set (dsq := d); set (pre := R_sqrt.sqrt (dsq + nv * nv))
  end.
  match goal with
  | |- context [1 / (pre * pre) + 1 / ?w] => set (v := w)
  end.
  match goal with
  | |- _ < ?k * _ + _ => set (c := k)
  end.
  assert (Hc : 0 < c) by (unfold c; lra).
  assert (Hv : 0 < v).
  { unfold v. apply Rdiv_lt_0_compat; [lra | nra]. }
  assert (Hnv : 0 < nv) by (unfold nv, Rpower; apply exp_pos).
  assert (Hdsq : 0 <= dsq) by (unfold dsq; apply Rle_0_sqr).
  assert (Hpre : pre * pre = dsq + nv * nv).
  { unfold pre. apply sqrt_sqrt. nra. }
  rewrite Hpre.
  set (s := 1 / (dsq + nv * nv) + 1 / v).
  assert (Hs : 0 < s).
  { unfold s. apply Rplus_lt_0_compat; apply Rdiv_lt_0_compat; nra. }
  set (nd := 1 / R_sqrt.sqrt s).
  assert (Hnd : 0 < nd).
  { unfold nd. apply Rdiv_lt_0_compat; [lra | now apply sqrt_lt_R0]. }
  assert (Hgain : 0 < nd * nd * (0 + gd * (1 - 1 / 2))).
  { apply Rmult_lt_0_compat; [now apply Rmult_lt_0_compat | lra]. }
  replace (rating p) with (c * ((rating p - Q2R 1500) / c) + Q2R 1500) at 1
    by (field; lra).
  apply Rplus_lt_compat_r. apply Rmult_lt_compat_l; [exact Hc | lra].
Qed.

Lemma deriveMatches_two_players :
  deriveMatches [[0%nat]; [1%nat]] None = Normal derived_batch.
Proof. reflexivity. Qed.

(** On that batch too: whenever the first call returns, the second
    match finds its opponent, player 0, with the raised rating. *)
Lemma derived_batch_second_match_sees_update (fuel : nat) (hi : store R) :
  store_before defaults fuel fresh_store derived_batch 1 = Some hi ->
  observed defaults fuel fresh_store derived_batch 1
  = Some (hi 1%nat, [hi 0%nat])
  /\ rating (fresh_store 0%nat) < rating (hi 0%nat).
Proof.
  intros Hs. split; [unfold observed; now rewrite Hs |].
  apply store_before_cons in Hs as (r & Hr & Hs).
  cbn [store_before] in Hs. inversion Hs; subst hi.
  cbn [player] in *. rewrite copyRating_same.
  apply (win_against_equal_raises_rating fuel _ (fresh_store 1%nat));
    [reflexivity | exact Hr].
Qed.

(** *** Instances of the guards *)

Lemma updateRating_length_mismatch_witness :
  updateRating defaults 0 fresh_store 0%nat [1%nat] []
  = (fresh_store, Throw err_lengths).
Proof.
  apply updateRating_length_mismatch. simpl. discriminate.
Defined.

Lemma deriveMatches_duplicate_within_group_witness :
  deriveMatches (num := R) [[0%nat; 0%nat]] None = Throw err_multiple_ranks.
Proof.
  apply deriveMatches_duplicate_within_group. left.
  exists [0%nat; 0%nat], 0%nat, 0%nat, 1%nat.
  repeat split; [left; reflexivity | discriminate].
Defined.

End Exact.

(** ** Rounding in binary64

    The primitive operations are specified by [SpecFloat]: a sum, a
    difference or a product is computed exactly on the significands
    and then brought back to 53 bits by right shifts that keep a round
    bit and a sticky bit.  The lemmas below follow that computation
    for the three operations of the bracket search, [k * Tau],
    [a - k * Tau] and [k + 1]. *)

Section Rounding.
Local Open Scope Z_scope.













Lemma shl_align_ge (mx : positive) (ex ex' : Z) :
  ex <= ex' -> shl_align mx ex ex' = (mx, ex).
Proof.
  intros Hle. unfold shl_align.
  destruct (ex' - ex) as [| p | p] eqn:Hdiff; try lia; reflexivity.
Qed.





End Rounding.

(** ** Facts of binary64 *)

Section Binary64.
Local Open Scope js_scope.

(** *** The scale conversions *)

(** C7, as the specification has it, fails for large values: at the
    rating 1e9 the round trip is off by 2^-23 (about 1.2e-7), and at
    the deviation 12345678 by 2^-29 (about 1.9e-9). *)
Lemma scale_round_trip_beyond_tolerance :
  within_tolerance (rating (round_trip rating_1e9)) (rating rating_1e9) = false
  /\ Math_abs (rating (round_trip rating_1e9) - rating rating_1e9)
     = lit (1 # 8388608)
  /\ within_tolerance (deviation (round_trip deviation_12345678))
       (deviation deviation_12345678) = false.
Proof. repeat split; vm_compute; reflexivity. Qed.

Lemma whole_ratings_checked :
  forallb
    (fun n =>
       within_tolerance (rating (round_trip (whole_rating n 0 (lit 0))))
         (float_of_Z (Z.of_nat n))
       && within_tolerance (deviation (round_trip (whole_rating 0 n (lit 0))))
            (float_of_Z (Z.of_nat n)))
    (seq 0 4001) = true.
Proof. vm_compute. reflexivity. Qed.

(** C7, as the code has it: both conversions pass the volatility
    through unchanged, for every triple; in exact arithmetic the round
    trip gives back the rating and the deviation themselves; in
    binary64 it gives them back within 1e-9 for the whole-number
    ratings and deviations from 0 to 4000 (each one checked), the
    error being a rounding error that grows with the magnitude. *)
Theorem scale_round_trip :
  (forall r : PlayerRating float,
      volatility (toGlicko2Scale r) = volatility r
      /\ volatility (toGlicko1Scale r) = volatility r)
  /\ (forall r : PlayerRating R,
         volatility (toGlicko2Scale r) = volatility r
         /\ volatility (toGlicko1Scale r) = volatility r
         /\ toGlicko1Scale (toGlicko2Scale r) = r)
  /\ (forall (n m : nat) (sigma : float),
         n <= 4000 -> m <= 4000 ->
         let r := whole_rating n m sigma in
         within_tolerance (rating (round_trip r)) (rating r) = true
         /\ within_tolerance (deviation (round_trip r)) (deviation r) = true
         /\ volatility (round_trip r) = sigma).
Proof.
  split; [| split].
  - intros r. split; reflexivity.
  - intros r. split; [reflexivity | split; [reflexivity |]].
    apply scale_round_trip_exact.
  - intros n m sigma Hn Hm r.
    pose proof whole_ratings_checked as Hall.
    rewrite forallb_forall in Hall.
    assert (Hin : forall k, k <= 4000 -> In k (seq 0 4001)).
    { intros k Hk. apply in_seq. lia. }
    pose proof (Hall n (Hin n Hn)) as Hrn.
    pose proof (Hall m (Hin m Hm)) as Hrm.
    apply andb_true_iff in Hrn as [Hrn _].
    apply andb_true_iff in Hrm as [_ Hrm].
    split; [exact Hrn | split; [exact Hrm | reflexivity]].
Qed.

Lemma scale_round_trip_witness :
  let r := whole_rating 1500 350 (lit (6 # 100)) in
  within_tolerance (rating (round_trip r)) (rating r) = true
  /\ within_tolerance (deviation (round_trip r)) (deviation r) = true
  /\ volatility (round_trip r) = lit (6 # 100).
Proof.
  apply (proj2 (proj2 scale_round_trip)); lia.
Defined.

(** *** The first loop in binary64 *)







(** *** The second loop in binary64 *)

(** The run that never ends in exact arithmetic (see
    [solve_volatility_exact_stall]) does end in binary64: [fA] is
    halved until it underflows to zero, then [C] is 0/0, the distance
    [Math.abs(B - A)] is NaN and the loop test fails.  The loop is left
    at its 1075th test, and the result is the initial [A = 8]. *)
Lemma solve_volatility_binary64_stall_ends :
  Number_toString e_pow_4 = "54.598150033144236"%string
  /\ Number_toString e_pow_8 = "2980.9579870417283"%string
  /\ solve_volatility (ML := engine_at_stall) 1074 (lit 8) (lit 8 * lit 8)
       (lit 0) (lit (1 # 2)) (lit (1 # 2)) e_pow_4 = None
  /\ solve_volatility (ML := engine_at_stall) 1075 (lit 8) (lit 8 * lit 8)
       (lit 0) (lit (1 # 2)) (lit (1 # 2)) e_pow_4 = Some (lit 8).
Proof. repeat split; vm_compute; reflexivity. Qed.

(** *** Number::toString on known values *)

Lemma Number_toString_examples :
  map Number_toString
    [lit (1 # 10); lit (1 # 3); lit (1 # 10) + lit (2 # 10); lit 100;
     lit (1 # 1000000); lit (1 # 10000000); lit (15 # 100000000);
     lit 1000000000000000 * lit 100000; lit 1000000000000000 * lit 1000000;
     lit (- 5 # 2); lit 0 / lit 0; lit 1 / lit 0; lit 9007199254740992]
  = ["0.1"; "0.3333333333333333"; "0.30000000000000004"; "100";
     "0.000001"; "1e-7"; "1.5e-7";
     "100000000000000000000"; "1e+21";
     "-2.5"; "NaN"; "Infinity"; "9007199254740992"]%string.
Proof. vm_compute. reflexivity. Qed.

(** *** calculateMatchQuality *)

(** C3, as the code has it: without opponents [calculateMatchQuality]
    returns a structure, in which [qualities] is empty, [min] and [max]
    keep their initial values 1 and 0, [str] is 0, and [avg] (0 / 0)
    and [med] (a sum of two absent elements, halved) are NaN. *)
Theorem calculateMatchQuality_without_opponents
    (pow : float -> float -> float) (e : Exports float)
    (player : PlayerRating float) :
  calculateMatchQuality pow e player [] =
  Normal {| qualities := [];
            min := lit 1;
            max := lit 0;
            avg := PrimFloat.nan;
            med := PrimFloat.nan;
            str := lit 0 |}.
Proof.
  unfold calculateMatchQuality. cbn [fold_left].
  do 2 f_equal; vm_compute; reflexivity.
Qed.

(** C3, as the specification has it, fails: the call for a new player
    and no opponents ends normally, hence not in an error. *)
Lemma calculateMatchQuality_empty_does_not_fail :
  (exists q, calculateMatchQuality pow_whole defaults (newRating defaults) []
             = Normal q
             /\ qualities q = [])
  /\ ~ exists msg,
         calculateMatchQuality pow_whole defaults (newRating defaults) []
         = Throw msg.
Proof.
  split.
  - eexists. split; reflexivity.
  - intros [msg H]. discriminate H.
Qed.

Lemma calculateMatchQualityG1_ext (pow pow' : float -> float -> float)
    (e : Exports float) (player opponent : PlayerRating float) :
  pow (lit 10) (G1_exponent e player opponent)
  = pow' (lit 10) (G1_exponent e player opponent) ->
  calculateMatchQualityG1 pow e player opponent
  = calculateMatchQualityG1 pow' e player opponent.
Proof.
  unfold calculateMatchQualityG1, G1_exponent. now intros ->.
Qed.

(** Only the values of [Math.pow] at the exponents that occur
    matter. *)
Lemma calculateMatchQuality_ext (pow pow' : float -> float -> float)
    (e : Exports float) (player : PlayerRating float)
    (opponents : list (PlayerRating float)) :
  (forall o, In o opponents ->
             calculateMatchQualityG1 pow e player o
             = calculateMatchQualityG1 pow' e player o) ->
  calculateMatchQuality pow e player opponents
  = calculateMatchQuality pow' e player opponents.
Proof.
  intros Hagree. unfold calculateMatchQuality.
  assert (Hfold : forall t,
            fold_left (tally_opponent pow e player) opponents t
            = fold_left (tally_opponent pow' e player) opponents t).
  { induction opponents as [| o rest IH]; intros t; [reflexivity |].
    simpl. unfold tally_opponent at 2 4.
    rewrite (Hagree o (or_introl eq_refl)).
    apply IH. intros o' Hin. apply Hagree. now right. }
  now rewrite Hfold.
Qed.

(** C9 (failing input): the four qualities are 1, 1, 0.1818... and
    2.0000001654...e-10.  [sort()] orders them as the strings ["0.18..."],
    ["1"], ["1"], ["2.0...e-10"], so [med] is (1 + 1) / 2 = 1; in
    ascending numeric order the two middle elements are 0.1818... and 1,
    whose mean is 0.5909... *)
Theorem median_follows_string_order (pow : float -> float -> float) :
  pow (lit 10) (lit 0) = lit 1 ->
  pow (lit 10) (lit 1) = lit 10 ->
  pow (lit 10) (lit 10) = lit 10000000000 ->
  exists q,
    calculateMatchQuality pow defaults (newRating defaults) four_opponents
    = Normal q
    /\ map Number_toString (qualities q)
       = ["1"; "1"; "0.18181818181818188"; "2.000000165480742e-10"]%string
    /\ map Number_toString (Array_sort (qualities q))
       = ["0.18181818181818188"; "1"; "1"; "2.000000165480742e-10"]%string
    /\ map Number_toString (numeric_sort (qualities q))
       = ["2.000000165480742e-10"; "0.18181818181818188"; "1"; "1"]%string
    /\ med q = lit 1
    /\ Number_toString (spec_median (qualities q)) = "0.5909090909090909"%string
    /\ med q <> spec_median (qualities q).
Proof.
  intros H0 H1 H10.
  rewrite (calculateMatchQuality_ext pow pow_whole).
  - eexists. split; [reflexivity |].
    repeat split; try (vm_compute; reflexivity).
    vm_compute. intros Heq.
    apply (f_equal (fun x => PrimFloat.eqb x (lit 1))) in Heq.
    vm_compute in Heq. discriminate Heq.
  - intros o Hin. apply calculateMatchQualityG1_ext.
    destruct Hin as [<- | [<- | [<- | [<- | []]]]].
    + transitivity (lit (num := float) 1);
        [exact H0 | vm_compute; reflexivity].
    + transitivity (lit (num := float) 1);
        [exact H0 | vm_compute; reflexivity].
    + transitivity (lit (num := float) 10);
        [exact H1 | vm_compute; reflexivity].
    + transitivity (lit (num := float) 10000000000);
        [exact H10 | vm_compute; reflexivity].
Qed.

Lemma median_follows_string_order_witness :
  exists q,
    calculateMatchQuality pow_whole defaults (newRating defaults) four_opponents
    = Normal q
    /\ map Number_toString (qualities q)
       = ["1"; "1"; "0.18181818181818188"; "2.000000165480742e-10"]%string
    /\ map Number_toString (Array_sort (qualities q))
       = ["0.18181818181818188"; "1"; "1"; "2.000000165480742e-10"]%string
    /\ map Number_toString (numeric_sort (qualities q))
       = ["2.000000165480742e-10"; "0.18181818181818188"; "1"; "1"]%string
    /\ med q = lit 1
    /\ Number_toString (spec_median (qualities q)) = "0.5909090909090909"%string
    /\ med q <> spec_median (qualities q).
Proof.
  apply (median_follows_string_order pow_whole); vm_compute; reflexivity.
Defined.

End Binary64.

(** ** The matches of a game and the batch

    [deriveMatches] and [updateRatings], in every arithmetic. *)

Section DerivedMatches.
Context {num : Type} {AR : Arith num} {ML : MathLib num}.

Lemma index_group_indexed (fb : option loc) (rk : nat) (players : list loc) :
  forall st st' : Indexing,
    index_group fb rk players st = Normal st' ->
    indexing_ok fb st ->
    indexedPlayers st'
    = indexedPlayers st ++ map (fun p => {| rank := rk; iplayer := p |}) players
    /\ indexing_ok fb st'.
Proof.
  induction players as [| p rest IH]; intros st st' Hrun Hok; simpl in Hrun.
  - inversion Hrun; subst st'. simpl. rewrite app_nil_r. auto.
  - unfold index_player in Hrun.
    destruct (indexOf_found p (playersAlreadyIndexed st)) eqn:Hfound;
      [discriminate |].
    assert (Hnew : ~ In p (playersAlreadyIndexed st)).
    { intros Hin. apply indexOf_found_In in Hin. congruence. }
    apply IH in Hrun.
    + cbn [indexedPlayers] in Hrun. destruct Hrun as [Heq Hok'].
      split; [| exact Hok']. rewrite Heq, <- app_assoc. reflexivity.
    + destruct Hok as [Hmap Hfilter].
      split; cbn [indexedPlayers playersAlreadyIndexed filteredPlayer].
      * rewrite map_app, Hmap. reflexivity.
      * destruct fb as [q |].
        -- destruct (Nat.eqb_spec p q) as [-> | Hpq].
           ++ split.
              ** rewrite nth_error_app2, Nat.sub_diag by lia. discriminate.
              ** rewrite Hmap, nth_error_app2; rewrite length_map;
                   [now rewrite Nat.sub_diag | lia].
           ++ destruct (filteredPlayer st) as [i |].
              ** destruct Hfilter as [Hi Hq]. split.
                 --- apply nth_error_Some. rewrite length_app.
                     apply nth_error_Some in Hi. lia.
                 --- rewrite nth_error_app1; [exact Hq |].
                     apply nth_error_Some. congruence.
              ** rewrite in_app_iff. simpl. intros [H | [H | []]];
                   [now apply Hfilter | now apply Hpq].
        -- exact Hfilter.
Qed.

Lemma index_rankings_indexed (fb : option loc) (rankings : list (list loc)) :
  forall (rk : nat) (st st' : Indexing),
    index_rankings fb rk rankings st = Normal st' ->
    indexing_ok fb st ->
    indexedPlayers st' = indexedPlayers st ++ ranked rk rankings
    /\ indexing_ok fb st'.
Proof.
  induction rankings as [| players rest IH]; intros rk st st' Hrun Hok;
    simpl in Hrun.
  - inversion Hrun; subst st'. simpl. rewrite app_nil_r. auto.
  - destruct (index_group fb rk players st) as [st1 | msg |] eqn:Hg;
      try discriminate.
    destruct (index_group_indexed fb rk players st st1 Hg Hok) as [Heq1 Hok1].
    destruct (IH (S rk) st1 st' Hrun Hok1) as [Heq2 Hok2].
    split; [| exact Hok2].
    rewrite Heq2, Heq1, <- app_assoc. reflexivity.
Qed.

Lemma ranked_players (rankings : list (list loc)) :
  forall rk, map iplayer (ranked rk rankings) = concat rankings.
Proof.
  induction rankings as [| players rest IH]; intros rk; [reflexivity |].
  simpl. rewrite map_app, map_map, IH. simpl. now rewrite map_id.
Qed.

Lemma ranked_In (rankings : list (list loc)) :
  forall (rk i : nat) (group : list loc) (p : loc),
    nth_error rankings i = Some group -> In p group ->
    In {| rank := rk + i; iplayer := p |} (ranked rk rankings).
Proof.
  induction rankings as [| players rest IH]; intros rk i group p Hnth Hin.
  - destruct i; discriminate.
  - simpl. apply in_or_app. destruct i as [| i]; simpl in Hnth.
    + inversion Hnth; subst players. left. rewrite Nat.add_0_r.
      now apply (in_map (fun q => {| rank := rk; iplayer := q |})).
    + right. replace (rk + S i) with (S rk + i) by lia.
      now apply (IH (S rk) i group).
Qed.

(** The initial values of the three variables. *)
Lemma indexing_ok_initial (fb : option loc) :
  indexing_ok fb
    {| indexedPlayers := []; playersAlreadyIndexed := []; filteredPlayer := None |}.
Proof. split; [reflexivity |]. destruct fb; simpl; auto. Qed.

(** The first half of [deriveMatches] on a traversal without
    repetition. *)
Lemma index_rankings_returns (fb : option loc) (rankings : list (list loc)) :
  NoDup (concat rankings) ->
  exists st,
    index_rankings fb 0 rankings
      {| indexedPlayers := []; playersAlreadyIndexed := []; filteredPlayer := None |}
    = Normal st
    /\ indexedPlayers st = ranked 0 rankings
    /\ indexing_ok fb st.
Proof.
  intros Hnd.
  pose proof (index_rankings_spec fb rankings 0
                {| indexedPlayers := []; playersAlreadyIndexed := [];
                   filteredPlayer := None |}) as Hspec.
  destruct (index_rankings fb 0 rankings _) as [st | msg |] eqn:Hrun.
  - exists st. split; [reflexivity |].
    exact (index_rankings_indexed fb rankings 0 _ st Hrun (indexing_ok_initial fb)).
  - destruct Hspec as [_ Hdup]. contradiction.
  - contradiction.
Qed.

(** *** Positions in the indexed list *)

Lemma combine_seq_In {A : Type} (l : list A) :
  forall (s i : nat) (x : A),
    In (i, x) (combine (seq s (length l)) l) <-> (s <= i /\ nth_error l (i - s) = Some x).
Proof.
  induction l as [| y l IH]; intros s i x; simpl.
  - split; [tauto |]. intros [_ H]. destruct (i - s); discriminate.
  - rewrite IH. split.
    + intros [Heq | [Hle Hnth]].
      * inversion Heq; subst. rewrite Nat.sub_diag. auto.
      * split; [lia |]. replace (i - s) with (S (i - S s)) by lia. exact Hnth.
    + intros [Hle Hnth]. destruct (Nat.eq_dec s i) as [-> | Hne].
      * rewrite Nat.sub_diag in Hnth. inversion Hnth. now left.
      * right. split; [lia |].
        replace (i - s) with (S (i - S s)) in Hnth by lia. exact Hnth.
Qed.

Lemma combine_seq_snd {A : Type} (l : list A) (s : nat) :
  map snd (combine (seq s (length l)) l) = l.
Proof.
  revert s. induction l as [| y l IH]; intros s; simpl; [| rewrite IH];
    reflexivity.
Qed.

(** Among objects that are all different, "another position" and
    "another object" select the same elements. *)
Lemma others_by_player (ips : list IndexedPlayer) (i : nat) (x : IndexedPlayer) :
  NoDup (map iplayer ips) -> nth_error ips i = Some x ->
  forall ip : nat * IndexedPlayer,
    In ip (combine (seq 0 (length ips)) ips) ->
    (fst ip =? i) = (iplayer (snd ip) =? iplayer x).
Proof.
  intros Hnd Hx [j y] Hin. simpl.
  apply combine_seq_In in Hin as [_ Hy]. rewrite Nat.sub_0_r in Hy.
  destruct (Nat.eqb_spec j i) as [-> | Hji].
  - rewrite Hx in Hy. inversion Hy; subst y. symmetry. apply Nat.eqb_refl.
  - symmetry. apply Nat.eqb_neq. intros Heq. apply Hji.
    rewrite NoDup_nth_error in Hnd. apply Hnd.
    + rewrite length_map. apply nth_error_Some. congruence.
    + rewrite !nth_error_map, Hx, Hy. simpl. now f_equal.
Qed.

Lemma filter_length_remove (l : list loc) (p : loc) :
  NoDup l -> In p l ->
  length (filter (fun q => negb (q =? p)) l) = length l - 1.
Proof.
  induction l as [| y l IH]; intros Hnd Hin; [destruct Hin |].
  inversion Hnd as [| ? ? Hy Hl]; subst. simpl.
  destruct (Nat.eqb_spec y p) as [-> | Hne]; simpl.
  - rewrite Nat.sub_0_r. rewrite forallb_filter_id; [reflexivity |].
    apply forallb_forall. intros q Hq.
    apply negb_true_iff, Nat.eqb_neq. intros ->. contradiction.
  - destruct Hin as [-> | Hin]; [contradiction |].
    rewrite IH by assumption. destruct l; [destruct Hin | simpl; lia].
Qed.

(** The match of one indexed player, read on the players. *)
Lemma derive_match_spec (ips : list IndexedPlayer) (i : nat) (x : IndexedPlayer) :
  NoDup (map iplayer ips) -> nth_error ips i = Some x ->
  let m := derive_match (combine (seq 0 (length ips)) ips) (i, x) in
  player m = iplayer x
  /\ opponents m = filter (fun q => negb (q =? iplayer x)) (map iplayer ips)
  /\ length (outcomes m) = length (opponents m).
Proof.
  intros Hnd Hx m. split; [reflexivity | split].
  - unfold m, derive_match. cbn [opponents fst].
    rewrite (filter_ext_in
               (fun ip => negb (i =? fst ip))
               (fun ip => negb (iplayer (snd ip) =? iplayer x))).
    + rewrite <- (combine_seq_snd ips 0) at 3.
      rewrite map_map.
      generalize (combine (seq 0 (length ips)) ips) as l.
      induction l as [| y l IH]; [reflexivity |].
      simpl. destruct (negb _); simpl; now rewrite IH.
    + intros ip Hin. f_equal. rewrite Nat.eqb_sym.
      exact (others_by_player ips i x Hnd Hx ip Hin).
  - unfold m, derive_match. cbn [opponents outcomes]. now rewrite !length_map.
Qed.

Lemma deriveMatches_unfiltered (rankings : list (list loc)) :
  NoDup (concat rankings) ->
  deriveMatches rankings None
  = Normal (map (derive_match
                   (combine (seq 0 (length (ranked 0 rankings))) (ranked 0 rankings)))
              (combine (seq 0 (length (ranked 0 rankings))) (ranked 0 rankings))).
Proof.
  intros Hnd. unfold deriveMatches.
  destruct (index_rankings_returns None rankings Hnd) as (st & -> & -> & _).
  reflexivity.
Qed.


Lemma ranked_In_inv (rankings : list (list loc)) :
  forall (rk : nat) (x : IndexedPlayer),
    In x (ranked rk rankings) ->
    exists group,
      rk <= rank x
      /\ nth_error rankings (rank x - rk) = Some group
      /\ In (iplayer x) group.
Proof.
  induction rankings as [| players rest IH]; intros rk x Hin; [destruct Hin |].
  simpl in Hin. apply in_app_or in Hin as [Hin | Hin].
  - apply in_map_iff in Hin as (p & <- & Hp). exists players. simpl.
    rewrite Nat.sub_diag. auto.
  - apply IH in Hin as (group & Hle & Hnth & Hp). exists group.
    split; [lia | split; [| exact Hp]].
    replace (rank x - rk) with (S (rank x - S rk)) by lia. exact Hnth.
Qed.

(** In a traversal without repetition a player stands in one group. *)
Lemma group_unique (rankings : list (list loc)) :
  NoDup (concat rankings) ->
  forall (i j : nat) (gi gj : list loc) (p : loc),
    nth_error rankings i = Some gi -> nth_error rankings j = Some gj ->
    In p gi -> In p gj -> i = j.
Proof.
  induction rankings as [| players rest IH]; intros Hnd i j gi gj p Hi Hj Hpi Hpj.
  - destruct i; discriminate.
  - simpl in Hnd.
    assert (Hsep : forall k g, nth_error rest k = Some g -> In p g ->
                               In p players -> False).
    { intros k g Hk Hg Hp.
      assert (Hin : In p (concat rest)).
      { apply in_concat. exists g. split; [| exact Hg].
        now apply nth_error_In with (n := k). }
      clear - Hnd Hp Hin. induction players as [| y l IHl]; [destruct Hp |].
      simpl in Hnd. inversion Hnd as [| ? ? Hy Hl]; subst.
      destruct Hp as [-> | Hp]; [| now apply IHl].
      apply Hy. apply in_or_app. now right. }
    destruct i as [| i], j as [| j]; simpl in Hi, Hj.
    + reflexivity.
    + inversion Hi; subst gi. destruct (Hsep j gj Hj Hpj Hpi).
    + inversion Hj; subst gj. destruct (Hsep i gi Hi Hpi Hpj).
    + f_equal. apply (IH (NoDup_app_remove_l _ _ Hnd) i j gi gj p); assumption.
Qed.

Lemma filter_position {A : Type} (l : list A) :
  forall (s i : nat) (x : A),
    nth_error l i = Some x ->
    filter (fun ip : nat * A => fst ip =? s + i) (combine (seq s (length l)) l)
    = [(s + i, x)].
Proof.
  induction l as [| y l IH]; intros s i x Hnth; [destruct i; discriminate |].
  simpl. destruct i as [| i]; simpl in Hnth.
  - inversion Hnth; subst y. rewrite Nat.add_0_r, Nat.eqb_refl. f_equal.
    rewrite (filter_ext_in _ (fun _ => false)); [apply filter_false |].
    intros [j z] Hin. apply combine_seq_In in Hin as [Hle _].
    simpl. apply Nat.eqb_neq. lia.
  - destruct (Nat.eqb_spec s (s + S i)); [lia |].
    replace (s + S i) with (S s + i) by lia. now apply IH.
Qed.

Lemma filter_map_comm {A B : Type} (h : A -> B) (t : B -> bool) (l : list A) :
  filter t (map h l) = map h (filter (fun a => t (h a)) l).
Proof.
  induction l as [| a l IH]; [reflexivity |].
  simpl. destruct (t (h a)); simpl; now rewrite IH.
Qed.

(** The matches of a traversal without repetition. *)
Lemma deriveMatches_structure (rankings : list (list loc)) :
  NoDup (concat rankings) ->
  exists ms : list (Match num),
    deriveMatches rankings None = Normal ms
    /\ map player ms = concat rankings
    /\ forall m, In m ms ->
         opponents m
         = filter (fun q => negb (q =? player m)) (concat rankings)
         /\ length (outcomes m) = length (opponents m)
         /\ length (opponents m) = length (concat rankings) - 1.
Proof.
  intros Hnd. rewrite (deriveMatches_unfiltered rankings Hnd).
  set (ips := ranked 0 rankings).
  assert (Hips : map iplayer ips = concat rankings) by apply ranked_players.
  eexists. split; [reflexivity | split].
  - transitivity (map iplayer (map snd (combine (seq 0 (length ips)) ips))).
    + now rewrite !map_map.
    + now rewrite combine_seq_snd.
  - intros m Hin. apply in_map_iff in Hin as ([i x] & <- & Hin).
    apply combine_seq_In in Hin as [_ Hx]. rewrite Nat.sub_0_r in Hx.
    rewrite <- Hips in Hnd.
    destruct (derive_match_spec ips i x Hnd Hx) as (Hp & Ho & Hlen).
    rewrite Hp, Ho, <- Hips. split; [reflexivity | split].
    + rewrite <- Ho. exact Hlen.
    + apply filter_length_remove; [exact Hnd |].
      apply in_map. now apply nth_error_In with (n := i).
Qed.

(** The outcome at a position is decided by the groups of the player
    and of the opponent at that position. *)
Lemma derived_outcome (rankings : list (list loc))
    (ms : list (Match num)) (m : Match num) (k : nat) (q : loc) (o : num)
    (i j : nat) (gi gj : list loc) :
  NoDup (concat rankings) ->
  deriveMatches rankings None = Normal ms -> In m ms ->
  nth_error (opponents m) k = Some q -> nth_error (outcomes m) k = Some o ->
  nth_error rankings i = Some gi -> In (player m) gi ->
  nth_error rankings j = Some gj -> In q gj ->
  o = if i <? j then Win else if j <? i then Loss else Draw.
Proof.
  intros Hnd Hrun Hm Hq Ho Hi Hpi Hj Hqj.
  rewrite (deriveMatches_unfiltered rankings Hnd) in Hrun.
  inversion Hrun; subst ms. clear Hrun.
  apply in_map_iff in Hm as ([a x] & <- & Hx).
  unfold derive_match in Hq, Ho, Hpi. cbn [opponents outcomes player snd fst] in *.
  rewrite nth_error_map in Hq, Ho.
  destruct (nth_error _ k) as [[b y] |] eqn:Hy; [| discriminate].
  simpl in Hq, Ho. inversion Hq; subst q. inversion Ho; subst o. clear Hq Ho.
  apply nth_error_In, filter_In in Hy as [Hy _].
  assert (Hrank : forall (c : nat) (z : IndexedPlayer) (r : nat) (g : list loc),
             In (c, z) (combine (seq 0 (length (ranked 0 rankings)))
                          (ranked 0 rankings)) ->
             nth_error rankings r = Some g -> In (iplayer z) g -> rank z = r).
  { intros c z r g Hz Hr Hg.
    apply combine_seq_In in Hz as [_ Hz]. apply nth_error_In in Hz.
    apply ranked_In_inv in Hz as (g' & _ & Hr' & Hg').
    rewrite Nat.sub_0_r in Hr'.
    exact (group_unique rankings Hnd _ _ _ _ _ Hr' Hr Hg' Hg). }
  rewrite (Hrank a x i gi Hx Hi Hpi), (Hrank b y j gj Hy Hj Hqj).
  reflexivity.
Qed.

(** X1: [deriveMatches] without a filter, on rankings that name no
    player twice, returns one match for every player, in the order of
    the rankings; the opponents of a match are all the other players,
    in that same order, and there is one outcome for each of them. *)
Theorem deriveMatches_every_player_against_all_others
    (rankings : list (list loc)) :
  NoDup (concat rankings) ->
  exists ms : list (Match num),
    deriveMatches rankings None = Normal ms
    /\ map player ms = concat rankings
    /\ forall m, In m ms ->
         opponents m
         = filter (fun q => negb (q =? player m)) (concat rankings)
         /\ length (outcomes m) = length (opponents m)
         /\ length (opponents m) = length (concat rankings) - 1.
Proof. exact (deriveMatches_structure rankings). Qed.

(** X2: every outcome that [deriveMatches] records is the one the two
    groups dictate: against an opponent of a later group it is [Win],
    against one of an earlier group [Loss], against one of the player's
    own group [Draw]. *)
Theorem deriveMatches_outcome_by_rank (rankings : list (list loc))
    (ms : list (Match num)) (m : Match num) (k : nat) (q : loc) (o : num)
    (i j : nat) (gi gj : list loc) :
  NoDup (concat rankings) ->
  deriveMatches rankings None = Normal ms -> In m ms ->
  nth_error (opponents m) k = Some q -> nth_error (outcomes m) k = Some o ->
  nth_error rankings i = Some gi -> In (player m) gi ->
  nth_error rankings j = Some gj -> In q gj ->
  o = if i <? j then Win else if j <? i then Loss else Draw.
Proof. exact (derived_outcome rankings ms m k q o i j gi gj). Qed.

(** X3: with a filter that is none of the ranked players (and no
    player ranked twice) [deriveMatches] ends in the no-match error,
    and only then. *)
Theorem deriveMatches_filter_not_ranked (rankings : list (list loc))
    (filterBy : loc) :
  NoDup (concat rankings) ->
  (deriveMatches (num := num) rankings (Some filterBy) = Throw err_no_match
   <-> ~ In filterBy (concat rankings)).
Proof.
  intros Hnd. unfold deriveMatches.
  destruct (index_rankings_returns (Some filterBy) rankings Hnd)
    as (st & -> & Hips & Hpai & Hfilter).
  rewrite Hips, ranked_players in Hpai. rewrite Hpai in Hfilter.
  destruct (filteredPlayer st) as [i |].
  - split; [discriminate |]. intros Hnot. destruct Hfilter as [_ Hi].
    destruct Hnot. now apply nth_error_In with (n := i).
  - split; [intros _; exact Hfilter | reflexivity].
Qed.

(** X4: with a filter that is one of the ranked players
    [deriveMatches] returns a single match, the one of that player in
    the unfiltered result. *)
Theorem deriveMatches_filter_selects (rankings : list (list loc))
    (filterBy : loc) :
  NoDup (concat rankings) -> In filterBy (concat rankings) ->
  exists (ms : list (Match num)) (m : Match num),
    deriveMatches rankings None = Normal ms
    /\ deriveMatches rankings (Some filterBy) = Normal [m]
    /\ filter (fun m' => player m' =? filterBy) ms = [m]
    /\ player m = filterBy.
Proof.
  intros Hnd Hin. rewrite (deriveMatches_unfiltered rankings Hnd).
  unfold deriveMatches.
  destruct (index_rankings_returns (Some filterBy) rankings Hnd)
    as (st & -> & Hips & Hpai & Hfilter).
  rewrite Hips in *. clear Hips.
  set (ips := ranked 0 rankings) in *.
  assert (Hplayers : map iplayer ips = concat rankings) by apply ranked_players.
  rewrite Hpai in Hfilter.
  destruct (filteredPlayer st) as [i |].
  2:{ destruct Hfilter. now rewrite Hplayers. }
  destruct Hfilter as [Hi Hfb].
  destruct (nth_error ips i) as [x |] eqn:Hx; [clear Hi | now destruct Hi].
  rewrite nth_error_map, Hx in Hfb.
  assert (Hfb' : iplayer x = filterBy) by (simpl in Hfb; congruence).
  clear Hfb. subst filterBy.
  pose proof (filter_position ips 0 i x Hx) as Hpos. simpl in Hpos.
  rewrite Hpos. cbn [map].
  eexists. eexists. split; [reflexivity | split; [reflexivity | split]].
  - rewrite filter_map_comm.
    rewrite (filter_ext_in _ (fun ip : nat * IndexedPlayer => fst ip =? i)).
    + rewrite Hpos. reflexivity.
    + intros ip Hip. cbn [derive_match player]. symmetry.
      rewrite <- Hplayers in Hnd.
      exact (others_by_player ips i x Hnd Hx ip Hip).
  - reflexivity.
Qed.


(** *** The batch functions on the store *)

(** [calculateRating] has one [throw]. *)
Lemma calculateRatingWith_throws (tau tauSq : num) fuel p
    (opps : list (PlayerRating num)) (outs : list num) (msg : string) :
  calculateRatingWith tau tauSq fuel p opps outs = Throw msg ->
  msg = err_lengths /\ length opps <> length outs.
Proof.
  unfold calculateRatingWith.
  destruct (Nat.eqb_spec (length opps) (length outs)) as [Heq | Hne]; simpl.
  - destruct (length opps =? 0); [discriminate |].
    destruct (solve_volatility _ _ _ _ _ _ _); discriminate.
  - intros H. inversion H. auto.
Qed.

Lemma updateRating_throws (e : Exports num) fuel (h h' : store num)
    (p : loc) (opps : list loc) (outs : list num) (msg : string) :
  updateRating e fuel h p opps outs = (h', Throw msg) ->
  h' = h /\ msg = err_lengths /\ length opps <> length outs.
Proof.
  unfold updateRating, calculateRating.
  destruct (calculateRatingWith _ _ _ _ _ _) as [r | msg' |] eqn:Hcalc;
    try discriminate.
  intros H. inversion H; subst.
  apply calculateRatingWith_throws in Hcalc as [-> Hne].
  rewrite length_map in Hne. auto.
Qed.

Lemma updateRatings_throws (e : Exports num) fuel (ms : list (Match num)) :
  forall (h h' : store num) (msg : string),
    updateRatings e fuel h ms = (h', Throw msg) ->
    msg = err_lengths
    /\ exists m, In m ms /\ length (opponents m) <> length (outcomes m).
Proof.
  induction ms as [| m rest IH]; intros h h' msg Hrun; simpl in Hrun.
  - discriminate.
  - destruct (updateRating e fuel h (player m) (opponents m) (outcomes m))
      as [h1 [u | msg1 |]] eqn:Hu.
    + apply IH in Hrun as [Hmsg (m' & Hin & Hne)].
      split; [exact Hmsg |]. exists m'. split; [now right | exact Hne].
    + inversion Hrun; subst.
      apply updateRating_throws in Hu as (_ & Hmsg & Hne).
      split; [exact Hmsg |]. exists m. split; [now left | exact Hne].
    + discriminate.
Qed.

(** X5: the matches that [deriveMatches] returns, with or without a
    filter, are well formed for [updateRatings]: the batch never ends
    in an exception. *)
Theorem updateRatings_of_derived_matches_never_throws
    (rankings : list (list loc)) (filterBy : option loc)
    (ms : list (Match num)) (e : Exports num) (fuel : nat) (h : store num) :
  deriveMatches rankings filterBy = Normal ms ->
  forall (h' : store num) (msg : string),
    updateRatings e fuel h ms <> (h', Throw msg).
Proof.
  intros Hderive h' msg Hrun.
  apply updateRatings_throws in Hrun as [_ (m & Hin & Hne)].
  apply Hne. clear Hne. unfold deriveMatches in Hderive.
  destruct (index_rankings _ _ _ _) as [st | |]; try discriminate.
  assert (Hwf : forall indexed l,
             In m (map (derive_match (num := num) indexed) l) ->
             length (opponents m) = length (outcomes m)).
  { intros indexed l Hm. apply in_map_iff in Hm as (ip & <- & _).
    unfold derive_match. cbn [opponents outcomes]. now rewrite !length_map. }
  destruct filterBy as [fb |]; [destruct (filteredPlayer st) as [i |] |];
    try discriminate; inversion Hderive; subst ms; eapply Hwf; exact Hin.
Qed.

(** X6: [updateRatings] is left at the first match whose two arrays
    differ in length, with the length error; the matches before it stay
    applied (the store is the one they left) and none after it is
    applied. *)
Theorem updateRatings_stops_at_first_error (e : Exports num) (fuel : nat)
    (ms : list (Match num)) :
  forall (h hi : store num) (i : nat) (m : Match num),
    store_before e fuel h ms i = Some hi ->
    nth_error ms i = Some m ->
    length (opponents m) <> length (outcomes m) ->
    updateRatings e fuel h ms = (hi, Throw err_lengths).
Proof.
  induction ms as [| m0 rest IH]; intros h hi i m Hs Hnth Hne.
  - destruct i; discriminate.
  - destruct i as [| i].
    + simpl in Hs, Hnth. inversion Hs; subst hi. inversion Hnth; subst m0.
      cbn [updateRatings]. unfold updateRating, calculateRating.
      rewrite calculateRatingWith_lengths; [reflexivity |].
      now rewrite length_map.
    + apply store_before_cons in Hs as (r & Hr & Hs). simpl in Hnth.
      cbn [updateRatings]. unfold updateRating. rewrite Hr.
      exact (IH _ hi i m Hs Hnth Hne).
Qed.

(** X7: [updateRatings] assigns to the players of its matches only:
    an object that is the player of no match of the batch is left as
    it was, however the batch ends. *)
Theorem updateRatings_assigns_players_only (e : Exports num) (fuel : nat)
    (ms : list (Match num)) (o : loc) :
  (forall m, In m ms -> player m <> o) ->
  forall h : store num, fst (updateRatings e fuel h ms) o = h o.
Proof.
  induction ms as [| m rest IH]; intros Hfresh h; [reflexivity |].
  cbn [updateRatings].
  assert (Hm : player m <> o) by (apply Hfresh; now left).
  assert (Hrest : forall m', In m' rest -> player m' <> o)
    by (intros m' Hin; apply Hfresh; now right).
  destruct (updateRating_cases e fuel h m) as [(r & Hr & Hu) | (c & Hu & Hc)];
    rewrite Hu.
  - rewrite (IH Hrest). apply copyRating_other. now apply not_eq_sym.
  - destruct c as [u | msg |]; [destruct (Hc u eq_refl) | reflexivity ..].
Qed.

(** X8: [calculateRating] reads the rating and the deviation of its
    opponents and nothing else: two lists of opponents that agree on
    those give the same result, whatever the volatilities are. *)
Theorem calculateRating_ignores_opponent_volatility (e : Exports num)
    (fuel : nat) (p : PlayerRating num) (opps opps' : list (PlayerRating num))
    (outs : list num) :
  Forall2 (fun o o' => rating o = rating o' /\ deviation o = deviation o')
    opps opps' ->
  calculateRating e fuel p opps outs = calculateRating e fuel p opps' outs.
Proof.
  intros Hsame. unfold calculateRating, calculateRatingWith.
  rewrite <- (Forall2_length Hsame).
  assert (Hv : forall q, v_sum q (map toGlicko2Scale opps)
                         = v_sum q (map toGlicko2Scale opps')).
  { intros q. unfold v_sum. generalize (lit (num := num) 0) as acc.
    induction Hsame as [| o o' l l' [Hr Hd] _ IH]; intros acc; [reflexivity |].
    simpl. rewrite Hr, Hd. apply IH. }
  assert (HD : forall q, D_sum q (map toGlicko2Scale opps) outs
                         = D_sum q (map toGlicko2Scale opps') outs).
  { clear Hv. intros q. unfold D_sum. generalize (lit (num := num) 0) as acc.
    generalize outs as os.
    induction Hsame as [| o o' l l' [Hr Hd] _ IH]; intros os acc;
      [reflexivity |].
    destruct os as [| s os]; [reflexivity |].
    simpl. rewrite Hr, Hd. apply IH. }
  now rewrite !Hv, !HD.
Qed.

(** *** One player, and the two builds *)

(** X9: a game with a single player: [deriveMatches] returns one
    match without opponents, and [updateRatings] on it is
    [updateRatingDidNotCompete] for that player. *)
Theorem single_player_game (e : Exports num) (fuel : nat) (h : store num)
    (p : loc) :
  deriveMatches (num := num) [[p]] None
  = Normal [ {| player := p; opponents := []; outcomes := [] |} ]
  /\ updateRatings e fuel h
       [ {| player := p; opponents := []; outcomes := [] |} ]
     = (updateRatingDidNotCompete h p, Normal tt).
Proof.
  split.
  - reflexivity.
  - cbn [updateRatings player opponents outcomes].
    unfold updateRating, calculateRating, updateRatingDidNotCompete.
    cbn [map]. now rewrite calculateRatingWith_nil.
Qed.

(** X10: the transpiled module computes what the source computes as
    long as [Tau] has not been assigned since the module was loaded;
    and in every state of the module the two agree on the calls that
    do not reach the solver (no opponents, or arrays of different
    lengths). *)
Theorem amd_agrees_with_source (m : AmdModule num) (fuel : nat)
    (p : PlayerRating num) (opps : list (PlayerRating num)) (outs : list num) :
  amd_calculateRating amd_load fuel p opps outs
  = calculateRating defaults fuel p opps outs
  /\ (opps = [] \/ length opps <> length outs ->
      amd_calculateRating m fuel p opps outs
      = calculateRating (exports m) fuel p opps outs).
Proof.
  split; [reflexivity |].
  intros Hshort. unfold amd_calculateRating, calculateRating, calculateRatingWith.
  destruct (Nat.eqb_spec (length opps) (length outs)) as [Heq | Hne];
    [| reflexivity].
  destruct Hshort as [-> | Hne]; [reflexivity | contradiction].
Qed.

End DerivedMatches.

(** ** Ratings in exact arithmetic *)

Section ExactRatings.
Local Open Scope R_scope.

Ltac read_R :=
  cbn [lit add sub mul div neg ltb Math_abs Math_sqrt R_Arith
       Math_PI Math_E Math_exp Math_log Math_pow R_MathLib] in *.

Lemma lit_scale : Q2R (1737178 # 10000) = scale_factor.
Proof. unfold Q2R, scale_factor. simpl. lra. Qed.

Lemma lit_R_1500 : Q2R 1500 = 1500.
Proof. unfold Q2R. simpl. lra. Qed.

Lemma lit_R_2 : Q2R 2 = 2.
Proof. unfold Q2R. simpl. lra. Qed.

Lemma lit_R_3 : Q2R 3 = 3.
Proof. unfold Q2R. simpl. lra. Qed.

Lemma lit_R_half : Q2R (5 # 10) = 1 / 2.
Proof. unfold Q2R. simpl. lra. Qed.

Lemma scale_factor_pos : 0 < scale_factor.
Proof. unfold scale_factor. lra. Qed.

Ltac literals :=
  read_R; rewrite ?lit_R_0, ?lit_R_1, ?lit_R_2, ?lit_R_3, ?lit_R_1500,
            ?lit_R_half, ?lit_scale in *.

(** *** g and E *)

Lemma g_R (d : R) : g d = 1 / R_sqrt.sqrt (1 + 3 * (d * d) / (PI * PI)).
Proof. unfold g, PiSq, Math_sq. literals. reflexivity. Qed.

Lemma E_R (mu mu' d : R) : E mu mu' d = 1 / (1 + exp (- g d * (mu - mu'))).
Proof. unfold E. literals. reflexivity. Qed.

Lemma g_le_1 (d : R) : g d <= 1.
Proof.
  rewrite g_R.
  assert (Hpi : 0 < PI * PI) by (pose proof PI_RGT_0; nra).
  assert (H0 : 0 <= 3 * (d * d) / (PI * PI)).
  { apply Rmult_le_pos; [nra | left; now apply Rinv_0_lt_compat]. }
  assert (H1 : 1 <= R_sqrt.sqrt (1 + 3 * (d * d) / (PI * PI))).
  { rewrite <- sqrt_1 at 1. apply sqrt_le_1_alt. lra. }
  apply Rmult_le_reg_r with (r := R_sqrt.sqrt (1 + 3 * (d * d) / (PI * PI)));
    [lra |].
  unfold Rdiv. rewrite Rmult_assoc, Rinv_l by lra. lra.
Qed.

Lemma E_bounds (mu mu' d : R) : 0 < E mu mu' d < 1.
Proof.
  rewrite E_R. pose proof (exp_pos (- g d * (mu - mu'))) as Hu.
  set (u := exp _) in *. split.
  - apply Rdiv_lt_0_compat; lra.
  - apply Rmult_lt_reg_r with (r := 1 + u); [lra |].
    unfold Rdiv. rewrite Rmult_assoc, Rinv_l by lra. lra.
Qed.

Lemma E_complement (mu mu' d : R) : E mu mu' d + E mu' mu d = 1.
Proof.
  rewrite !E_R.
  replace (- g d * (mu' - mu)) with (- (- g d * (mu - mu'))) by ring.
  rewrite exp_Ropp. pose proof (exp_pos (- g d * (mu - mu'))) as Hu.
  set (u := exp _) in *. field. lra.
Qed.

(** X11: the two inner functions of [calculateRating] in exact
    arithmetic: [g] lies in (0, 1], the expected score [E] lies
    strictly between 0 and 1, and the expected scores of two players
    against each other add up to 1. *)
Theorem expected_score_bounds (mu mu' d : R) :
  0 < g d <= 1
  /\ 0 < E mu mu' d < 1
  /\ E mu mu' d + E mu' mu d = 1.
Proof.
  split; [split; [apply g_pos | apply g_le_1] |].
  split; [apply E_bounds | apply E_complement].
Qed.

(** X12: in exact arithmetic the expected score grows strictly with
    the player's rating and falls strictly with the opponent's. *)
Theorem expected_score_monotone (mu1 mu2 mu' d : R) :
  mu1 < mu2 ->
  E mu1 mu' d < E mu2 mu' d /\ E mu' mu2 d < E mu' mu1 d.
Proof.
  intros Hlt. pose proof (g_pos d) as Hg. rewrite !E_R.
  assert (H1 : exp (- g d * (mu2 - mu')) < exp (- g d * (mu1 - mu')))
    by (apply exp_increasing; nra).
  assert (H2 : exp (- g d * (mu' - mu1)) < exp (- g d * (mu' - mu2)))
    by (apply exp_increasing; nra).
  pose proof (exp_pos (- g d * (mu2 - mu'))).
  pose proof (exp_pos (- g d * (mu1 - mu'))).
  pose proof (exp_pos (- g d * (mu' - mu1))).
  pose proof (exp_pos (- g d * (mu' - mu2))).
  unfold Rdiv. rewrite !Rmult_1_l.
  split; apply Rinv_lt_contravar; try lra; apply Rmult_lt_0_compat; lra.
Qed.

(** *** v and the sum of the outcomes *)

Lemma v_term_pos (mu mu' d : R) :
  0 < Math_sq (g d) * E mu mu' d * (1 - E mu mu' d).
Proof.
  pose proof (g_pos d). pose proof (E_bounds mu mu' d).
  unfold Math_sq. read_R.
  apply Rmult_lt_0_compat; [apply Rmult_lt_0_compat |]; nra.
Qed.

Lemma v_sum_fold (p : PlayerRating R) (opps : list (PlayerRating R)) :
  forall acc : R,
    acc <= fold_left
             (fun v opponent =>
                add v (mul (mul (Math_sq (g (deviation opponent)))
                              (E (rating p) (rating opponent) (deviation opponent)))
                         (sub (lit 1)
                            (E (rating p) (rating opponent) (deviation opponent)))))
             opps acc
    /\ (opps <> [] ->
        acc < fold_left
                (fun v opponent =>
                   add v (mul (mul (Math_sq (g (deviation opponent)))
                                 (E (rating p) (rating opponent) (deviation opponent)))
                            (sub (lit 1)
                               (E (rating p) (rating opponent) (deviation opponent)))))
                opps acc).
Proof.
  induction opps as [| o rest IH]; intros acc; cbn [fold_left].
  - split; [lra | intros H; now destruct H].
  - pose proof (v_term_pos (rating p) (rating o) (deviation o)) as Ht.
    match goal with
    | |- context [fold_left ?fn rest ?a] => destruct (IH a) as [Hle _]
    end.
    read_R. rewrite lit_R_1 in *. split; [| intros _]; lra.
Qed.

Lemma v_sum_pos (p : PlayerRating R) (opps : list (PlayerRating R)) :
  opps <> [] -> 0 < v_sum p opps.
Proof.
  intros Hne. unfold v_sum.
  pose proof (proj2 (v_sum_fold p opps (lit 0)) Hne) as H.
  assert (H0 : lit (num := R) 0 = 0) by exact lit_R_0.
  rewrite H0 in H at 1. exact H.
Qed.

(** X13: with at least one opponent the sum that the source inverts
    in [v = 1.0 / v] is positive in exact arithmetic, so the division
    is by no zero and the variance estimate [v] is positive. *)
Theorem variance_estimate_positive (p : PlayerRating R)
    (opps : list (PlayerRating R)) :
  opps <> [] ->
  0 < v_sum p opps /\ 0 < 1 / v_sum p opps.
Proof.
  intros Hne. pose proof (v_sum_pos p opps Hne) as Hv.
  split; [exact Hv | apply Rdiv_lt_0_compat; lra].
Qed.


(** *** What calculateRating returns *)

(** The value [A] of the solver enters steps 6 to 8 through e^(A/2)
    only.  What follows holds for every real number [A], so it does
    not depend on how the solver reaches its value, nor on the
    logarithm in [a = ln(sigma^2)]; a volatility of 0, for which the
    source has [A = -Infinity] and the new volatility 0, is a case
    that the real numbers do not have. *)

(** The result for a solver value [A], in terms of the new deviation
    [nd] on the internal scale; the new volatility is e^(A/2). *)
Lemma rating_after_solver_shape (p : PlayerRating R)
    (opps : list (PlayerRating R)) (outs : list R) (A : R) :
  opps <> [] ->
  exists nd : R,
    0 < nd
    /\ nd * nd < deviation p / scale_factor * (deviation p / scale_factor)
                 + exp (A / 2) * exp (A / 2)
    /\ nd * nd < 1 / v_sum (toGlicko2Scale p) (map toGlicko2Scale opps)
    /\ rating_after_solver p opps outs A
       = {| rating :=
              rating p
              + scale_factor
                * (nd * nd
                   * D_sum (toGlicko2Scale p) (map toGlicko2Scale opps) outs);
            deviation := scale_factor * nd;
            volatility := exp (A / 2) |}.
Proof.
  intros Hne. unfold rating_after_solver, toGlicko1Scale.
  cbn [rating deviation volatility].
  assert (Hne' : map (toGlicko2Scale (num := R)) opps <> []).
  { destruct opps; [now destruct Hne | discriminate]. }
  pose proof (v_sum_pos (toGlicko2Scale p) _ Hne') as Hvs.
  set (vs := v_sum (toGlicko2Scale p) (map toGlicko2Scale opps)) in *.
  set (DS := D_sum (toGlicko2Scale p) (map toGlicko2Scale opps) outs).
  unfold Math_sq. cbn [deviation rating toGlicko2Scale]. literals.
  rewrite pow_E_exp.
  set (nv := exp (A / 2)).
  assert (Hnv : 0 < nv) by (unfold nv; apply exp_pos).
  pose proof scale_factor_pos as Hc. set (c := scale_factor) in *.
  set (dsq := deviation p / c * (deviation p / c)).
  assert (Hdsq : 0 <= dsq) by (unfold dsq; apply Rle_0_sqr).
  set (pre := R_sqrt.sqrt (dsq + nv * nv)).
  assert (Hpre : pre * pre = dsq + nv * nv) by (unfold pre; apply sqrt_sqrt; nra).
  rewrite Hpre.
  assert (Hv : 0 < 1 / vs) by (apply Rdiv_lt_0_compat; lra).
  set (s := 1 / (dsq + nv * nv) + 1 / (1 / vs)).
  assert (Hq : 0 < dsq + nv * nv) by nra.
  assert (Hs : 0 < s).
  { unfold s. apply Rplus_lt_0_compat; apply Rdiv_lt_0_compat; lra. }
  set (nd := 1 / R_sqrt.sqrt s).
  assert (Hnd : 0 < nd).
  { unfold nd. apply Rdiv_lt_0_compat; [lra | now apply sqrt_lt_R0]. }
  assert (Hnd2 : nd * nd = 1 / s).
  { unfold nd. rewrite <- (sqrt_sqrt s) at 3 by lra.
    field. apply Rgt_not_eq. now apply sqrt_lt_R0. }
  exists nd. split; [exact Hnd | split; [| split]].
  - rewrite Hnd2. apply Rmult_lt_reg_r with (r := s); [exact Hs |].
    unfold Rdiv at 1. rewrite Rmult_1_l, Rinv_l by lra.
    unfold s. replace ((dsq + nv * nv) * (1 / (dsq + nv * nv) + 1 / (1 / vs)))
      with (1 + (dsq + nv * nv) * vs) by (field; lra).
    nra.
  - rewrite Hnd2. apply Rmult_lt_reg_r with (r := s); [exact Hs |].
    unfold Rdiv at 1. rewrite Rmult_1_l, Rinv_l by lra.
    unfold s. replace (1 / vs * (1 / (dsq + nv * nv) + 1 / (1 / vs)))
      with (1 + 1 / (vs * (dsq + nv * nv))) by (field; lra).
    assert (0 < 1 / (vs * (dsq + nv * nv))) by (apply Rdiv_lt_0_compat; nra).
    lra.
  - f_equal. field. lra.
Qed.


(** X14: [calculateRating], for a call with opponents and as many
    outcomes, never throws: it is the solver followed by the steps
    collected in [rating_after_solver], and runs out of fuel exactly
    when the solver does (in every arithmetic).  In exact arithmetic
    those steps give, for every real number [A] that the solver
    leaves, the new volatility e^(A/2), which is positive, and a
    positive new deviation below the one that the period would have
    left without games at the new volatility:
    RD'^2 < RD^2 + (173.7178 * sigma')^2. *)
Theorem calculateRating_result_bounds :
  (forall (num : Type) (AR : Arith num) (ML : MathLib num) (e : Exports num)
          (fuel : nat) (p : PlayerRating num)
          (opps : list (PlayerRating num)) (outs : list num),
      opps <> [] -> length opps = length outs ->
      calculateRating e fuel p opps outs
      = match
          solve_volatility fuel (Tau e) (mul (Tau e) (Tau e))
            (mul (div (lit 1)
                    (v_sum (toGlicko2Scale p) (map toGlicko2Scale opps)))
               (D_sum (toGlicko2Scale p) (map toGlicko2Scale opps) outs))
            (Math_sq (deviation (toGlicko2Scale p)))
            (div (lit 1) (v_sum (toGlicko2Scale p) (map toGlicko2Scale opps)))
            (volatility (toGlicko2Scale p))
        with
        | Some A => Normal (rating_after_solver p opps outs A)
        | None => OutOfFuel
        end)
  /\ forall (p : PlayerRating R) (opps : list (PlayerRating R))
            (outs : list R) (A : R),
       opps <> [] -> length opps = length outs ->
       volatility (rating_after_solver p opps outs A) = exp (A / 2)
       /\ 0 < volatility (rating_after_solver p opps outs A)
       /\ 0 < deviation (rating_after_solver p opps outs A)
       /\ deviation (rating_after_solver p opps outs A)
          * deviation (rating_after_solver p opps outs A)
          < deviation p * deviation p
            + scale_factor * volatility (rating_after_solver p opps outs A)
              * (scale_factor * volatility (rating_after_solver p opps outs A)).
Proof.
  split.
  - intros num AR ML e fuel p opps outs Hne Hlen.
    now apply calculateRating_after_solver.
  - intros p opps outs A Hne _.
    destruct (rating_after_solver_shape p opps outs A Hne)
      as (nd & Hnd & Hpre & _ & ->).
    cbn [rating deviation volatility].
    pose proof scale_factor_pos as Hc. pose proof (exp_pos (A / 2)) as Hnv.
    split; [reflexivity | split; [exact Hnv |]].
    split; [now apply Rmult_lt_0_compat |].
    replace (deviation p * deviation p
             + scale_factor * exp (A / 2) * (scale_factor * exp (A / 2)))
      with (scale_factor * scale_factor
            * (deviation p / scale_factor * (deviation p / scale_factor)
               + exp (A / 2) * exp (A / 2)))
      by (field; lra).
    replace (scale_factor * nd * (scale_factor * nd))
      with (scale_factor * scale_factor * (nd * nd)) by ring.
    apply Rmult_lt_compat_l; [nra | exact Hpre].
Qed.

(** *** The direction in which the rating moves *)

Lemma D_sum_wins (p : PlayerRating R) (l : list (PlayerRating R * R)) :
  (forall o s, In (o, s) l -> s = 1) ->
  forall acc : R,
    acc <= fold_left
             (fun DSum '(opponent, outcome) =>
                add DSum
                  (mul (g (deviation opponent))
                     (sub outcome
                        (E (rating p) (rating opponent) (deviation opponent)))))
             l acc
    /\ (l <> [] ->
        acc < fold_left
                (fun DSum '(opponent, outcome) =>
                   add DSum
                     (mul (g (deviation opponent))
                        (sub outcome
                           (E (rating p) (rating opponent) (deviation opponent)))))
                l acc).
Proof.
  induction l as [| [o s] rest IH]; intros Hall acc; cbn [fold_left].
  - split; [lra | intros H; now destruct H].
  - assert (Hs : s = 1) by (apply (Hall o); now left).
    pose proof (g_pos (deviation o)) as Hg.
    pose proof (E_bounds (rating p) (rating o) (deviation o)) as HE.
    match goal with
    | |- context [fold_left ?fn rest ?a] =>
        destruct (IH (fun o' s' H => Hall o' s' (or_intror H)) a) as [Hle _]
    end.
    read_R. subst s.
    assert (0 < g (deviation o) * (1 - E (rating p) (rating o) (deviation o)))
      by (apply Rmult_lt_0_compat; lra).
    split; [| intros _]; lra.
Qed.

Lemma D_sum_losses (p : PlayerRating R) (l : list (PlayerRating R * R)) :
  (forall o s, In (o, s) l -> s = 0) ->
  forall acc : R,
    fold_left
      (fun DSum '(opponent, outcome) =>
         add DSum
           (mul (g (deviation opponent))
              (sub outcome
                 (E (rating p) (rating opponent) (deviation opponent)))))
      l acc <= acc
    /\ (l <> [] ->
        fold_left
          (fun DSum '(opponent, outcome) =>
             add DSum
               (mul (g (deviation opponent))
                  (sub outcome
                     (E (rating p) (rating opponent) (deviation opponent)))))
          l acc < acc).
Proof.
  induction l as [| [o s] rest IH]; intros Hall acc; cbn [fold_left].
  - split; [lra | intros H; now destruct H].
  - assert (Hs : s = 0) by (apply (Hall o); now left).
    pose proof (g_pos (deviation o)) as Hg.
    pose proof (E_bounds (rating p) (rating o) (deviation o)) as HE.
    match goal with
    | |- context [fold_left ?fn rest ?a] =>
        destruct (IH (fun o' s' H => Hall o' s' (or_intror H)) a) as [Hle _]
    end.
    read_R. subst s.
    assert (0 < g (deviation o) * E (rating p) (rating o) (deviation o))
      by (apply Rmult_lt_0_compat; lra).
    split; [| intros _]; nra.
Qed.

Lemma D_sum_even (p : PlayerRating R) (l : list (PlayerRating R * R)) :
  (forall o s, In (o, s) l -> s = 1 / 2 /\ rating o = rating p) ->
  forall acc : R,
    fold_left
      (fun DSum '(opponent, outcome) =>
         add DSum
           (mul (g (deviation opponent))
              (sub outcome
                 (E (rating p) (rating opponent) (deviation opponent)))))
      l acc = acc.
Proof.
  induction l as [| [o s] rest IH]; intros Hall acc; cbn [fold_left];
    [reflexivity |].
  destruct (Hall o s (or_introl eq_refl)) as [-> Hr].
  rewrite IH by (intros o' s' H; apply Hall; now right).
  rewrite Hr, E_of_equals. read_R. ring.
Qed.

Lemma combine_nonempty {A B : Type} (l : list A) (l' : list B) :
  l <> [] -> length l = length l' -> combine l l' <> [].
Proof. destruct l, l'; simpl; intros; congruence. Qed.

(** The rating moves with the outcomes, whatever the solver leaves. *)
Lemma rating_moves_with_outcomes (p : PlayerRating R)
    (opps : list (PlayerRating R)) (outs : list R) (A : R) :
  opps <> [] -> length opps = length outs ->
  (Forall (fun s => s = Win) outs ->
   rating p < rating (rating_after_solver p opps outs A))
  /\ (Forall (fun s => s = Loss) outs ->
      rating (rating_after_solver p opps outs A) < rating p).
Proof.
  intros Hne Hlen.
  destruct (rating_after_solver_shape p opps outs A Hne)
    as (nd & Hnd & _ & _ & ->).
  cbn [rating].
  pose proof scale_factor_pos as Hc.
  assert (Hnd2 : 0 < nd * nd) by now apply Rmult_lt_0_compat.
  assert (Hl : combine (map (toGlicko2Scale (num := R)) opps) outs <> []).
  { apply combine_nonempty; [destruct opps; [now destruct Hne | discriminate] |].
    now rewrite length_map. }
  unfold D_sum.
  assert (H0 : lit (num := R) 0 = 0) by exact lit_R_0.
  rewrite H0.
  split; intros Hall; rewrite Forall_forall in Hall.
  - assert (Hs : forall o s, In (o, s) (combine (map toGlicko2Scale opps) outs) ->
                             s = 1).
    { intros o s Hin. apply in_combine_r in Hin. rewrite (Hall s Hin).
      exact lit_R_1. }
    pose proof (proj2 (D_sum_wins (toGlicko2Scale p) _ Hs 0) Hl) as HD.
    assert (0 < scale_factor * (nd * nd * fold_left _ _ 0))
      by (apply Rmult_lt_0_compat; [exact Hc | apply Rmult_lt_0_compat;
                                               [exact Hnd2 | exact HD]]).
    lra.
  - assert (Hs : forall o s, In (o, s) (combine (map toGlicko2Scale opps) outs) ->
                             s = 0).
    { intros o s Hin. apply in_combine_r in Hin. rewrite (Hall s Hin).
      exact lit_R_0. }
    pose proof (proj2 (D_sum_losses (toGlicko2Scale p) _ Hs 0) Hl) as HD.
    match goal with
    | |- _ + scale_factor * (nd * nd * ?d) < _ =>
        assert (0 < scale_factor * (nd * nd * - d))
          by (apply Rmult_lt_0_compat; [exact Hc | apply Rmult_lt_0_compat;
                                                   [exact Hnd2 | lra]]);
        replace (scale_factor * (nd * nd * d))
          with (- (scale_factor * (nd * nd * - d))) by ring
    end.
    lra.
Qed.

(** X15: a period of wins only raises the rating and a period of
    losses only lowers it (exact arithmetic): whatever the opponents
    and whatever real number [A] the solver leaves, the rating that
    steps 6 to 8 of [calculateRating] then give is above, respectively
    below, the player's. *)
Theorem calculateRating_wins_raise_losses_lower (p : PlayerRating R)
    (opps : list (PlayerRating R)) (outs : list R) (A : R) :
  opps <> [] -> length opps = length outs ->
  (Forall (fun s => s = Win) outs ->
   rating p < rating (rating_after_solver p opps outs A))
  /\ (Forall (fun s => s = Loss) outs ->
      rating (rating_after_solver p opps outs A) < rating p).
Proof. exact (rating_moves_with_outcomes p opps outs A). Qed.

(** X16: draws against opponents of the player's own rating leave the
    rating as it is (exact arithmetic): whatever real number [A] the
    solver leaves, the rating that steps 6 to 8 of [calculateRating]
    then give is the player's. *)
Theorem calculateRating_draws_with_equals_keep_rating (p : PlayerRating R)
    (opps : list (PlayerRating R)) (outs : list R) (A : R) :
  opps <> [] -> length opps = length outs ->
  Forall (fun o => rating o = rating p) opps ->
  Forall (fun s => s = Draw) outs ->
  rating (rating_after_solver p opps outs A) = rating p.
Proof.
  intros Hne _ Hopps Houts.
  destruct (rating_after_solver_shape p opps outs A Hne)
    as (nd & _ & _ & _ & ->).
  cbn [rating]. unfold D_sum. rewrite D_sum_even.
  - assert (H0 : lit (num := R) 0 = 0) by exact lit_R_0.
    rewrite H0. ring.
  - rewrite Forall_forall in Hopps, Houts. intros o s Hin. split.
    + apply in_combine_r in Hin. rewrite (Houts s Hin). exact lit_R_half.
    + apply in_combine_l, in_map_iff in Hin as (o' & <- & Ho').
      unfold toGlicko2Scale. cbn [rating]. now rewrite (Hopps o' Ho').
Qed.


(** *** A period without games *)

Lemma calculateRatingDidNotCompete_R (p : PlayerRating R) :
  calculateRatingDidNotCompete p
  = {| rating := rating p;
       deviation :=
         scale_factor
         * R_sqrt.sqrt (deviation p / scale_factor * (deviation p / scale_factor)
                        + volatility p * volatility p);
       volatility := volatility p |}.
Proof.
  unfold calculateRatingDidNotCompete, toGlicko1Scale, toGlicko2Scale, Math_sq.
  cbn [rating deviation volatility]. literals.
  pose proof scale_factor_pos. f_equal. field. lra.
Qed.

(** The rating and the volatility stay, and the deviation becomes the
    non-negative number with RD'^2 = RD^2 + (173.7178 * sigma)^2. *)
Lemma period_without_games (p : PlayerRating R) :
  rating (calculateRatingDidNotCompete p) = rating p
  /\ volatility (calculateRatingDidNotCompete p) = volatility p
  /\ 0 <= deviation (calculateRatingDidNotCompete p)
  /\ deviation (calculateRatingDidNotCompete p)
     * deviation (calculateRatingDidNotCompete p)
     = deviation p * deviation p
       + scale_factor * volatility p * (scale_factor * volatility p).
Proof.
  rewrite calculateRatingDidNotCompete_R. cbn [rating deviation volatility].
  pose proof scale_factor_pos as Hc.
  set (q := deviation p / scale_factor * (deviation p / scale_factor)
            + volatility p * volatility p).
  assert (Hq : 0 <= q).
  { unfold q. pose proof (Rle_0_sqr (deviation p / scale_factor)).
    pose proof (Rle_0_sqr (volatility p)). unfold Rsqr in *. lra. }
  split; [reflexivity | split; [reflexivity | split]].
  - apply Rmult_le_pos; [lra | apply sqrt_pos].
  - replace (scale_factor * R_sqrt.sqrt q * (scale_factor * R_sqrt.sqrt q))
      with (scale_factor * scale_factor * (R_sqrt.sqrt q * R_sqrt.sqrt q)) by ring.
    rewrite sqrt_sqrt by exact Hq. unfold q. field. lra.
Qed.

(** X17: a period without games, in exact arithmetic: the rating and
    the volatility stay, and the deviation becomes the non-negative
    number with RD'^2 = RD^2 + (173.7178 * sigma)^2; so it never
    shrinks, and it grows whenever the volatility is not zero. *)
Theorem calculateRatingDidNotCompete_exact (p : PlayerRating R) :
  rating (calculateRatingDidNotCompete p) = rating p
  /\ volatility (calculateRatingDidNotCompete p) = volatility p
  /\ deviation (calculateRatingDidNotCompete p)
     * deviation (calculateRatingDidNotCompete p)
     = deviation p * deviation p
       + scale_factor * volatility p * (scale_factor * volatility p)
  /\ Rabs (deviation p) <= deviation (calculateRatingDidNotCompete p)
  /\ (volatility p <> 0 ->
      Rabs (deviation p) < deviation (calculateRatingDidNotCompete p)).
Proof.
  destruct (period_without_games p) as (Hr & Hv & Hpos & Hd).
  pose proof scale_factor_pos as Hc.
  set (d' := deviation (calculateRatingDidNotCompete p)) in *.
  set (w := scale_factor * volatility p) in *.
  split; [exact Hr | split; [exact Hv | split; [exact Hd |]]].
  split.
  - destruct (Rcase_abs (deviation p)) as [Hneg | Hnn];
      [rewrite Rabs_left by exact Hneg | rewrite Rabs_right by exact Hnn]; nra.
  - intros Hvol. assert (Hw : w <> 0) by (unfold w; nra).
    assert (0 < w * w) by nra.
    destruct (Rcase_abs (deviation p)) as [Hneg | Hnn];
      [rewrite Rabs_left by exact Hneg | rewrite Rabs_right by exact Hnn]; nra.
Qed.

Lemma idle_periods (h : store R) (p : loc) (n : nat) :
  let h' := Nat.iter n (fun s => updateRatingDidNotCompete s p) h in
  rating (h' p) = rating (h p)
  /\ volatility (h' p) = volatility (h p)
  /\ ((0 < n)%nat -> 0 <= deviation (h' p))
  /\ deviation (h' p) * deviation (h' p)
     = deviation (h p) * deviation (h p)
       + INR n * (scale_factor * volatility (h p)
                  * (scale_factor * volatility (h p)))
  /\ forall l, l <> p -> h' l = h l.
Proof.
  induction n as [| n IH].
  - simpl. split; [reflexivity | split; [reflexivity | split; [lia | split]]].
    + lra.
    + reflexivity.
  - cbv zeta in *. rewrite Nat.iter_succ. 
    set (hn := Nat.iter n (fun s => updateRatingDidNotCompete s p) h) in *.
    destruct IH as (Hr & Hv & _ & Hd & Hfr).
    unfold updateRatingDidNotCompete.
    rewrite copyRating_same.
    destruct (period_without_games (hn p)) as (Hr' & Hv' & Hpos & Hd').
    rewrite Hr', Hv', Hd', Hr, Hv, Hd, S_INR.
    repeat split; try reflexivity.
    + intros _. exact Hpos.
    + ring.
    + intros l Hl. rewrite copyRating_other by exact Hl. now apply Hfr.
Qed.

(** X18: [n] periods without games, applied in place to one player:
    the rating and the volatility stay, RD^2 grows by
    (173.7178 * sigma)^2 per period, and no other object changes. *)
Theorem updateRatingDidNotCompete_periods (h : store R) (p : loc) (n : nat) :
  rating (Nat.iter n (fun s => updateRatingDidNotCompete s p) h p)
  = rating (h p)
  /\ volatility (Nat.iter n (fun s => updateRatingDidNotCompete s p) h p)
     = volatility (h p)
  /\ deviation (Nat.iter n (fun s => updateRatingDidNotCompete s p) h p)
     * deviation (Nat.iter n (fun s => updateRatingDidNotCompete s p) h p)
     = deviation (h p) * deviation (h p)
       + INR n * (scale_factor * volatility (h p)
                  * (scale_factor * volatility (h p)))
  /\ forall l, l <> p ->
       Nat.iter n (fun s => updateRatingDidNotCompete s p) h l = h l.
Proof.
  destruct (idle_periods h p n) as (Hr & Hv & _ & Hd & Hfr).
  repeat split; assumption.
Qed.

(** X19: the deviation has no upper limit: for a player whose
    volatility is not zero, enough periods without games bring it
    above any given value (in particular above [InitialDeviation]). *)
Theorem updateRatingDidNotCompete_unbounded (h : store R) (p : loc) (M : R) :
  volatility (h p) <> 0 ->
  exists n : nat,
    M < deviation (Nat.iter n (fun s => updateRatingDidNotCompete s p) h p).
Proof.
  intros Hvol. pose proof scale_factor_pos as Hc.
  set (w := scale_factor * volatility (h p) * (scale_factor * volatility (h p))).
  assert (Hw : 0 < w).
  { unfold w. assert (scale_factor * volatility (h p) <> 0) by nra. nra. }
  set (N := S (Z.to_nat (up (M * M / w)))).
  assert (HN : M * M / w < INR N).
  { destruct (archimed (M * M / w)) as [Hup _].
    assert (0 <= M * M / w).
    { apply Rmult_le_pos; [nra | left; now apply Rinv_0_lt_compat]. }
    assert (0 < up (M * M / w))%Z by (apply lt_IZR; lra).
    unfold N. rewrite S_INR, INR_IZR_INZ, Z2Nat.id by lia. lra. }
  exists N.
  destruct (idle_periods h p N) as (_ & _ & Hpos & Hd & _).
  cbv zeta in *. fold w in Hd.
  set (d := deviation (Nat.iter N (fun s => updateRatingDidNotCompete s p) h p)) in *.
  assert (Hd0 : 0 <= d) by (apply Hpos; unfold N; lia).
  assert (HM : M * M < INR N * w).
  { apply Rmult_lt_compat_r with (r := w) in HN; [| exact Hw].
    unfold Rdiv in HN. rewrite Rmult_assoc, Rinv_l in HN by lra. lra. }
  assert (Hsq : M * M < d * d) by nra.
  destruct (Rlt_dec M d) as [Hlt | Hge]; [exact Hlt | exfalso; nra].
Qed.

(** X20: in exact arithmetic the conversions are inverse to each other
    in the other order too: a triple on the internal scale, taken to
    the original scale and back, is itself. *)
Theorem scale_round_trip_internal (r : PlayerRating R) :
  toGlicko2Scale (toGlicko1Scale r) = r.
Proof.
  destruct r as [mu phi sigma]. unfold toGlicko1Scale, toGlicko2Scale.
  cbn [rating deviation volatility]. literals. pose proof scale_factor_pos.
  f_equal; field; lra.
Qed.


(** *** The two starting points of the solver *)

(** X21: the two starting points of the second loop enclose a sign
    change of [f] (exact arithmetic): whichever way [B] was assigned,
    [f(A)] at [A = a] and [f(B)] are not both positive and not both
    negative. *)
Theorem bracket_encloses_sign_change (D deviationSq v a tau B : R)
    (fuel : nat) :
  tau <> 0 -> 0 < deviationSq + v ->
  bracket_B fuel (f D deviationSq v a (tau * tau)) a tau
    (Math_sq D) deviationSq v = Some B ->
  f D deviationSq v a (tau * tau) a * f D deviationSq v a (tau * tau) B <= 0.
Proof.
  intros Ht Hs HB.
  pose proof (exp_pos a) as Hu.
  assert (Htt : 0 < tau * tau) by nra.
  assert (Hden : forall x, 0 < 2 * (deviationSq + v + exp x)
                               * (2 * (deviationSq + v + exp x))).
  { intros x. pose proof (exp_pos x). nra. }
  assert (Hfa : f D deviationSq v a (tau * tau) a
                = exp a * (D * D - deviationSq - v - exp a)
                  / (2 * (deviationSq + v + exp a)
                     * (2 * (deviationSq + v + exp a)))).
  { rewrite f_R. replace ((a - a) / (tau * tau)) with 0 by (field; lra). lra. }
  unfold bracket_B in HB.
  destruct (ltb (add deviationSq v) (Math_sq D)) eqn:Hbranch.
  - (* B = log (D^2 - phi^2 - v) *)
    apply ltb_R_true in Hbranch. unfold Math_sq in Hbranch, HB. read_R.
    inversion HB as [HB']. clear HB.
    set (w := D * D - deviationSq - v) in *.
    assert (Hw : 0 < w) by (unfold w; lra).
    assert (HeB : exp (ln w) = w) by now apply exp_ln.
    assert (HfB : f D deviationSq v a (tau * tau) (ln w)
                  = - ((ln w - a) / (tau * tau))).
    { rewrite f_R, HeB. fold w.
      replace (w * (w - w)) with 0 by ring. unfold Rdiv. lra. }
    rewrite Hfa, HfB. fold w.
    set (K := exp a / (2 * (deviationSq + v + exp a)
                       * (2 * (deviationSq + v + exp a)))).
    assert (HK : 0 < K) by (apply Rdiv_lt_0_compat; [exact Hu | apply Hden]).
    replace (exp a * (w - exp a)
             / (2 * (deviationSq + v + exp a) * (2 * (deviationSq + v + exp a))))
      with (K * (w - exp a)) by (unfold K; field; specialize (Hden a); lra).
    assert (Hmono : 0 <= (w - exp a) * (ln w - a)).
    { destruct (Rtotal_order (ln w) a) as [Hlt | [Heq | Hgt]].
      - pose proof (exp_increasing _ _ Hlt) as He. rewrite HeB in He. nra.
      - rewrite Heq. replace (a - a) with 0 by ring. lra.
      - pose proof (exp_increasing _ _ Hgt) as He. rewrite HeB in He. nra. }
    assert (HT : 0 < / (tau * tau)) by now apply Rinv_0_lt_compat.
    unfold Rdiv.
    replace (K * (w - exp a) * - ((ln w - a) * / (tau * tau)))
      with (- (K * / (tau * tau) * ((w - exp a) * (ln w - a)))) by ring.
    assert (0 <= K * / (tau * tau) * ((w - exp a) * (ln w - a))).
    { apply Rmult_le_pos; [left; now apply Rmult_lt_0_compat | exact Hmono]. }
    lra.
  - (* B = a - k * tau, where the search was left *)
    apply ltb_R_false in Hbranch. unfold Math_sq in Hbranch. read_R.
    destruct (bracket_search _ _ _ _ _) as [k |] eqn:Hk; [| discriminate].
    inversion HB as [HB']. clear HB.
    apply bracket_search_exit in Hk as (n & _ & Hexit & _).
    assert (Hneg : f D deviationSq v a (tau * tau) a < 0).
    { rewrite Hfa. unfold Rdiv.
      assert (0 < / (2 * (deviationSq + v + exp a)
                     * (2 * (deviationSq + v + exp a))))
        by (apply Rinv_0_lt_compat, Hden).
      assert (exp a * (D * D - deviationSq - v - exp a) < 0) by nra.
      nra. }
    read_R. nra.
Qed.

(** *** The second loop on an exact root *)

(** X22: in exact arithmetic the second loop is never left once its
    moving endpoint [B] is an exact root of [f] farther than 1e-6
    from [A]: each pass computes [C = B] again and halves [fA]. *)
Theorem illinois_stalls_at_exact_root (fx : R -> R) (A B fA : R) :
  fx B = 0 -> fA <> 0 -> 1 / 1000000 < Rabs (B - A) ->
  forall fuel : nat, illinois fuel fx A B fA (fx B) = None.
Proof.
  intros Hzero HfA Hfar fuel. rewrite Hzero.
  now apply (illinois_stalls_on_zero fx A B Hzero Hfar fuel B fA 0).
Qed.

(** *** A derived batch: first and last place *)

Lemma in_concat_nth (rankings : list (list loc)) (q : loc) :
  In q (concat rankings) ->
  exists j g, nth_error rankings j = Some g /\ In q g.
Proof.
  intros Hin. apply in_concat in Hin as (g & Hg & Hq).
  apply In_nth_error in Hg as [j Hj]. now exists j, g.
Qed.

Lemma outcome_positions (m : Match R) (o : R) :
  length (outcomes m) = length (opponents m) ->
  In o (outcomes m) ->
  exists k q, nth_error (opponents m) k = Some q
              /\ nth_error (outcomes m) k = Some o.
Proof.
  intros Hlen Hin. apply In_nth_error in Hin as [k Hk].
  assert (Hlt : (k < length (opponents m))%nat).
  { rewrite <- Hlen. apply nth_error_Some. congruence. }
  destruct (nth_error (opponents m) k) as [q |] eqn:Hq.
  - now exists k, q.
  - apply nth_error_None in Hq. lia.
Qed.

(** The player that stands alone in the first group wins against
    everybody; the player that stands alone in the last group loses
    against everybody. *)
Lemma first_place_wins (rest : list (list loc)) (p : loc)
    (ms : list (Match R)) (m : Match R) :
  NoDup (concat ([p] :: rest)) ->
  deriveMatches ([p] :: rest) None = Normal ms ->
  In m ms -> player m = p ->
  Forall (fun s => s = Win) (outcomes m).
Proof.
  intros Hnd Hms Hm Hp.
  destruct (deriveMatches_structure (num := R) _ Hnd) as (ms' & Hms' & _ & Hall).
  rewrite Hms in Hms'. inversion Hms'; subst ms'. clear Hms'.
  destruct (Hall m Hm) as (Hopp & Hlen & _).
  apply Forall_forall. intros o Ho.
  destruct (outcome_positions m o Hlen Ho) as (k & q & Hq & Hk).
  assert (Hqin : In q (opponents m)) by now apply nth_error_In with (n := k).
  rewrite Hopp, Hp in Hqin. apply filter_In in Hqin as [Hqc Hqp].
  apply negb_true_iff, Nat.eqb_neq in Hqp.
  simpl in Hqc. destruct Hqc as [Heq | Hqc]; [now destruct Hqp |].
  destruct (in_concat_nth rest q Hqc) as (j & g & Hj & Hg).
  rewrite (derived_outcome ([p] :: rest) ms m k q o 0 (S j) [p] g Hnd Hms Hm
             Hq Hk eq_refl (or_introl (eq_sym Hp)) Hj Hg).
  reflexivity.
Qed.

Lemma last_place_loses (front : list (list loc)) (p : loc)
    (ms : list (Match R)) (m : Match R) :
  NoDup (concat (front ++ [[p]])) ->
  deriveMatches (front ++ [[p]]) None = Normal ms ->
  In m ms -> player m = p ->
  Forall (fun s => s = Loss) (outcomes m).
Proof.
  intros Hnd Hms Hm Hp.
  destruct (deriveMatches_structure (num := R) _ Hnd) as (ms' & Hms' & _ & Hall).
  rewrite Hms in Hms'. inversion Hms'; subst ms'. clear Hms'.
  destruct (Hall m Hm) as (Hopp & Hlen & _).
  apply Forall_forall. intros o Ho.
  destruct (outcome_positions m o Hlen Ho) as (k & q & Hq & Hk).
  assert (Hqin : In q (opponents m)) by now apply nth_error_In with (n := k).
  rewrite Hopp, Hp in Hqin. apply filter_In in Hqin as [Hqc Hqp].
  apply negb_true_iff, Nat.eqb_neq in Hqp.
  rewrite concat_app in Hqc. simpl in Hqc.
  apply in_app_or in Hqc as [Hqc | [Heq | []]]; [| now destruct Hqp].
  destruct (in_concat_nth front q Hqc) as (j & g & Hj & Hg).
  assert (Hjlt : (j < length front)%nat) by (apply nth_error_Some; congruence).
  assert (Hi : nth_error (front ++ [[p]]) (length front) = Some [p]).
  { rewrite nth_error_app2, Nat.sub_diag by lia. reflexivity. }
  assert (Hj' : nth_error (front ++ [[p]]) j = Some g)
    by now rewrite nth_error_app1.
  rewrite (derived_outcome (front ++ [[p]]) ms m k q o (length front) j [p] g
             Hnd Hms Hm Hq Hk Hi (or_introl (eq_sym Hp)) Hj' Hg).
  destruct (Nat.ltb_spec (length front) j) as [Hlt | _]; [lia |].
  destruct (Nat.ltb_spec j (length front)) as [_ | Hge]; [reflexivity | lia].
Qed.

(** X23: a game of several players, rated as one batch.  In the
    matches that [deriveMatches] gives, the player that stood alone in
    the first group has won against everybody and the player that
    stood alone in the last group has lost against everybody; so for
    every store that the match is applied to (the one that the earlier
    matches of the batch left) and every real number [A] that the
    solver leaves, the rating that steps 6 to 8 of [calculateRating]
    then give is above, respectively below, the rating that the player
    has in that store (exact arithmetic). *)
Theorem derived_batch_first_rises_last_falls (rankings : list (list loc))
    (p : loc) (h : store R) (A : R) :
  NoDup (concat rankings) ->
  (forall rest, rankings = [p] :: rest -> concat rest <> [] ->
     exists (ms : list (Match R)) (m : Match R),
       deriveMatches rankings None = Normal ms
       /\ In m ms /\ player m = p
       /\ opponents m = concat rest
       /\ Forall (fun s => s = Win) (outcomes m)
       /\ rating (h p)
          < rating (rating_after_solver (h p) (map h (opponents m))
                      (outcomes m) A))
  /\ (forall front, rankings = front ++ [[p]] -> concat front <> [] ->
        exists (ms : list (Match R)) (m : Match R),
          deriveMatches rankings None = Normal ms
          /\ In m ms /\ player m = p
          /\ opponents m = concat front
          /\ Forall (fun s => s = Loss) (outcomes m)
          /\ rating (rating_after_solver (h p) (map h (opponents m))
                       (outcomes m) A)
             < rating (h p)).
Proof.
  intros Hnd.
  destruct (deriveMatches_structure (num := R) _ Hnd)
    as (ms & Hms & Hplayers & Hall).
  assert (Hmatch : In p (concat rankings) -> exists m, In m ms /\ player m = p).
  { intros Hin. rewrite <- Hplayers in Hin.
    apply in_map_iff in Hin as (m & Hp & Hm). now exists m. }
  assert (Hkeep : forall l : list loc,
             ~ In p l -> filter (fun q => negb (Nat.eqb q p)) l = l).
  { intros l Hnot. apply forallb_filter_id, forallb_forall. intros q Hq.
    apply negb_true_iff, Nat.eqb_neq. intros ->. contradiction. }
  assert (Hmove : forall m, In m ms -> opponents m <> [] ->
            map h (opponents m) <> []
            /\ length (map h (opponents m)) = length (outcomes m)).
  { intros m Hm Hopp. split.
    - destruct (opponents m); [now destruct Hopp | discriminate].
    - rewrite length_map. symmetry. exact (proj1 (proj2 (Hall m Hm))). }
  split.
  - intros rest Hshape Hrest. subst rankings.
    destruct Hmatch as (m & Hm & Hp); [now left |].
    assert (Hopp : opponents m = concat rest).
    { rewrite (proj1 (Hall m Hm)), Hp. simpl. rewrite Nat.eqb_refl. simpl.
      apply Hkeep. simpl in Hnd. now inversion Hnd. }
    pose proof (first_place_wins rest p ms m Hnd Hms Hm Hp) as Hwins.
    exists ms, m. repeat (split; [assumption |]).
    destruct (Hmove m Hm) as [Hne Hlen]; [now rewrite Hopp |].
    exact (proj1 (rating_moves_with_outcomes (h p) _ _ A Hne Hlen) Hwins).
  - intros front Hshape Hfront. subst rankings.
    destruct Hmatch as (m & Hm & Hp).
    { rewrite concat_app. apply in_or_app. right. now left. }
    assert (Hopp : opponents m = concat front).
    { rewrite (proj1 (Hall m Hm)), Hp, concat_app, filter_app. simpl.
      rewrite Nat.eqb_refl. simpl. rewrite app_nil_r.
      apply Hkeep. rewrite concat_app in Hnd. simpl in Hnd.
      intros Hin. apply NoDup_remove_2 in Hnd. apply Hnd.
      rewrite app_nil_r. exact Hin. }
    pose proof (last_place_loses front p ms m Hnd Hms Hm Hp) as Hloses.
    exists ms, m. repeat (split; [assumption |]).
    destruct (Hmove m Hm) as [Hne Hlen]; [now rewrite Hopp |].
    exact (proj2 (rating_moves_with_outcomes (h p) _ _ A Hne Hlen) Hloses).
Qed.

(** *** The order of the games *)

Lemma v_sum_permutation (p : PlayerRating R) (l l' : list (PlayerRating R)) :
  Permutation l l' -> forall acc : R,
    fold_left
      (fun v opponent =>
         add v (mul (mul (Math_sq (g (deviation opponent)))
                       (E (rating p) (rating opponent) (deviation opponent)))
                  (sub (lit 1)
                     (E (rating p) (rating opponent) (deviation opponent)))))
      l acc
    = fold_left
        (fun v opponent =>
           add v (mul (mul (Math_sq (g (deviation opponent)))
                         (E (rating p) (rating opponent) (deviation opponent)))
                    (sub (lit 1)
                       (E (rating p) (rating opponent) (deviation opponent)))))
        l' acc.
Proof.
  induction 1 as [| x l l' _ IH | x y l | l l' l'' _ IH1 _ IH2]; intros acc;
    cbn [fold_left].
  - reflexivity.
  - apply IH.
  - f_equal. read_R. ring.
  - now rewrite IH1.
Qed.

Lemma D_sum_permutation (p : PlayerRating R) (l l' : list (PlayerRating R * R)) :
  Permutation l l' -> forall acc : R,
    fold_left
      (fun DSum '(opponent, outcome) =>
         add DSum
           (mul (g (deviation opponent))
              (sub outcome
                 (E (rating p) (rating opponent) (deviation opponent)))))
      l acc
    = fold_left
        (fun DSum '(opponent, outcome) =>
           add DSum
             (mul (g (deviation opponent))
                (sub outcome
                   (E (rating p) (rating opponent) (deviation opponent)))))
        l' acc.
Proof.
  induction 1 as [| x l l' _ IH | x y l | l l' l'' _ IH1 _ IH2]; intros acc;
    cbn [fold_left].
  - reflexivity.
  - apply IH.
  - f_equal. destruct x, y. read_R. ring.
  - now rewrite IH1.
Qed.

Lemma combine_map_l {A B C : Type} (h : A -> C) (l : list A) (l' : list B) :
  combine (map h l) l' = map (fun x => (h (fst x), snd x)) (combine l l').
Proof.
  revert l'. induction l as [| a l IH]; intros [| b l']; simpl;
    [reflexivity .. |]. now rewrite IH.
Qed.

Lemma combine_fst {A B : Type} (l : list A) (l' : list B) :
  length l = length l' -> map fst (combine l l') = l.
Proof.
  revert l'. induction l as [| a l IH]; intros [| b l'] Hlen; simpl in *;
    try discriminate; [reflexivity |]. rewrite IH; [reflexivity | lia].
Qed.

(** X24: in exact arithmetic the order in which the games of the
    period are listed does not matter: the same games (opponent and
    outcome) in another order give the same result. *)
Theorem calculateRating_order_of_games (e : Exports R) (fuel : nat)
    (p : PlayerRating R) (opps opps' : list (PlayerRating R))
    (outs outs' : list R) :
  length opps = length outs -> length opps' = length outs' ->
  Permutation (combine opps outs) (combine opps' outs') ->
  calculateRating e fuel p opps outs = calculateRating e fuel p opps' outs'.
Proof.
  intros Hlen Hlen' Hperm.
  assert (Hopps : Permutation opps opps').
  { rewrite <- (combine_fst opps outs Hlen), <- (combine_fst opps' outs' Hlen').
    now apply Permutation_map. }
  unfold calculateRating, calculateRatingWith.
  rewrite <- (Permutation_length Hopps), <- Hlen', <- (Permutation_length Hopps),
    <- Hlen, Nat.eqb_refl.
  cbn [negb].
  assert (Hv : v_sum (toGlicko2Scale p) (map toGlicko2Scale opps)
               = v_sum (toGlicko2Scale p) (map toGlicko2Scale opps')).
  { unfold v_sum. apply v_sum_permutation. now apply Permutation_map. }
  assert (HD : D_sum (toGlicko2Scale p) (map toGlicko2Scale opps) outs
               = D_sum (toGlicko2Scale p) (map toGlicko2Scale opps') outs').
  { unfold D_sum. rewrite !combine_map_l. apply D_sum_permutation.
    now apply Permutation_map. }
  now rewrite Hv, HD.
Qed.

End ExactRatings.

(** ** The match-quality estimate in binary64 *)

Section Order.
Local Open Scope Z_scope.

(** The order of the machine numbers is transitive. *)
Lemma SFltb_trans (x y z : spec_float) :
  SFltb x y = true -> SFltb y z = true -> SFltb x z = true.
Proof.
  unfold SFltb, SFcompare.
  destruct x as [sx | sx | | sx mx ex], y as [sy | sy | | sy my ey],
           z as [sz | sz | | sz mz ez];
    try discriminate;
    try (destruct sx; discriminate);
    try (destruct sy; discriminate);
    try (destruct sz; discriminate);
    try (destruct sx, sy; discriminate);
    try (destruct sy, sz; discriminate);
    try (destruct sx, sz; discriminate);
    try (destruct sx, sy, sz; try discriminate; reflexivity).
  all: destruct sx, sy, sz; try discriminate; try reflexivity.
  all: change (PosDef.Pos.compare_cont Eq) with Pos.compare.
  all: destruct (Z.compare_spec ex ey), (Z.compare_spec ey ez),
         (Z.compare_spec ex ez); try discriminate; try reflexivity; try lia.
  all: destruct (Pos.compare_spec mx my), (Pos.compare_spec my mz),
         (Pos.compare_spec mx mz); try discriminate; try reflexivity; try lia.
Qed.

End Order.

Section Quality.
Local Open Scope js_scope.

Lemma ltb_float_trans (x y z : float) :
  (x <? y) = true -> (y <? z) = true -> (x <? z) = true.
Proof.
  cbn [ltb float_Arith]. rewrite !FloatAxioms.ltb_spec. apply SFltb_trans.
Qed.

Lemma ltb_float_irrefl (x : float) : (x <? x) = false.
Proof.
  cbn [ltb float_Arith]. rewrite FloatAxioms.ltb_spec.
  unfold SFltb, SFcompare.
  destruct (Prim2SF x) as [s | s | | s m e]; try reflexivity.
  - now destruct s.
  - change (PosDef.Pos.compare_cont Eq) with Pos.compare.
    rewrite Z.compare_refl, Pos.compare_refl. now destruct s.
Qed.

(** Not below an upper number, hence not below a lower one. *)
Lemma ltb_float_not_below (x lo hi : float) :
  (x <? hi) = false -> (lo <? hi) = true -> (x <? lo) = false.
Proof.
  intros Hx Hlo. destruct (x <? lo) eqn:Hxl; [| reflexivity].
  now rewrite (ltb_float_trans x lo hi Hxl Hlo) in Hx.
Qed.

Lemma ltb_float_not_above (x lo hi : float) :
  (lo <? x) = false -> (lo <? hi) = true -> (hi <? x) = false.
Proof.
  intros Hx Hhi. destruct (hi <? x) eqn:Hhx; [| reflexivity].
  now rewrite (ltb_float_trans lo hi x Hhi Hhx) in Hx.
Qed.

Variable pow : float -> float -> float.
Variable e : Exports float.
Variable player : PlayerRating float.

Lemma tally_opponent_ok (seen : list (PlayerRating float)) (t : Tally)
    (o : PlayerRating float) :
  tally_ok pow e player seen t -> tally_ok pow e player (seen ++ [o]) (tally_opponent pow e player t o).
Proof.
  intros (Hq & Hsum & Hmin & Hmin' & Hmax & Hmax' & Hstr).
  set (q := calculateMatchQualityG1 pow e player o).
  unfold tally_ok, tally_opponent. fold q.
  cbn [t_qualities t_sum t_min t_max t_strongestOpponent t_strongest].
  split; [| split; [| split; [| split; [| split; [| split]]]]].
  - rewrite map_app, Hq. reflexivity.
  - rewrite fold_left_app, <- Hsum. reflexivity.
  - intros x Hx. apply in_app_or in Hx as [Hx | [<- | []]].
    + destruct (q <? t_min t) eqn:Hlt; [| now apply Hmin].
      exact (ltb_float_not_below x q (t_min t) (Hmin x Hx) Hlt).
    + destruct (q <? t_min t) eqn:Hlt; [apply ltb_float_irrefl | exact Hlt].
  - destruct (q <? t_min t).
    + right. apply in_or_app. right. now left.
    + destruct Hmin' as [H1 | Hin]; [now left | right].
      apply in_or_app. now left.
  - intros x Hx. apply in_app_or in Hx as [Hx | [<- | []]].
    + destruct (q >? t_max t) eqn:Hlt; [| now apply Hmax].
      exact (ltb_float_not_above x (t_max t) q (Hmax x Hx) Hlt).
    + destruct (q >? t_max t) eqn:Hlt; [apply ltb_float_irrefl | exact Hlt].
  - destruct (q >? t_max t).
    + right. apply in_or_app. right. now left.
    + destruct Hmax' as [H0 | Hin]; [now left | right].
      apply in_or_app. now left.
  - destruct (t_strongestOpponent t) as [s |].
    + destruct Hstr as (Hs & Hval & Htop).
      destruct (rating o >? rating s) eqn:Hlt.
      * split; [apply in_or_app; right; now left | split; [reflexivity |]].
        intros x Hx. apply in_app_or in Hx as [Hx | [<- | []]].
        -- exact (ltb_float_not_above (rating x) (rating s) (rating o)
                    (Htop x Hx) Hlt).
        -- apply ltb_float_irrefl.
      * split; [apply in_or_app; now left | split; [exact Hval |]].
        intros x Hx. apply in_app_or in Hx as [Hx | [<- | []]];
          [now apply Htop | exact Hlt].
    + destruct Hstr as [-> _].
      split; [now left | split; [reflexivity |]].
      intros x [<- | []]. apply ltb_float_irrefl.
Qed.

Lemma tally_fold_ok (opponents : list (PlayerRating float)) :
  forall (seen : list (PlayerRating float)) (t : Tally),
    tally_ok pow e player seen t ->
    tally_ok pow e player (seen ++ opponents)
      (fold_left (tally_opponent pow e player) opponents t).
Proof.
  induction opponents as [| o rest IH]; intros seen t Hok; cbn [fold_left].
  - now rewrite app_nil_r.
  - replace (seen ++ o :: rest) with ((seen ++ [o]) ++ rest)
      by (rewrite <- app_assoc; reflexivity).
    apply IH. now apply tally_opponent_ok.
Qed.

Lemma tally_ok_initial :
  tally_ok pow e player []
    {| t_qualities := []; t_min := lit 1; t_max := lit 0; t_sum := lit 0;
       t_strongestOpponent := None; t_strongest := lit 0 |}.
Proof.
  unfold tally_ok. cbn. repeat split; auto; intros x [].
Qed.

Lemma calculateMatchQuality_ok (opponents : list (PlayerRating float)) :
  exists t,
    tally_ok pow e player opponents t
    /\ calculateMatchQuality pow e player opponents
       = Normal {| qualities := t_qualities t;
                   min := t_min t;
                   max := t_max t;
                   avg := t_sum t / float_of_Z (Z.of_nat (length opponents));
                   med := median_of (t_qualities t);
                   str := t_strongest t |}.
Proof.
  eexists. split; [| reflexivity].
  exact (tally_fold_ok opponents [] _ tally_ok_initial).
Qed.

End Quality.

Section QualityResults.
Local Open Scope js_scope.

(** *** The sort keeps the elements *)

Lemma insert_sorted_In {A : Type} (lt : A -> A -> bool) (x y : A) (l : list A) :
  In y (insert_sorted lt x l) <-> y = x \/ In y l.
Proof.
  induction l as [| z l IH]; simpl.
  - intuition.
  - destruct (lt z x); simpl; rewrite ?IH; intuition.
Qed.

Lemma insert_sorted_length {A : Type} (lt : A -> A -> bool) (x : A) (l : list A) :
  length (insert_sorted lt x l) = S (length l).
Proof.
  induction l as [| z l IH]; simpl; [reflexivity |].
  destruct (lt z x); simpl; now rewrite ?IH.
Qed.

Lemma sort_by_In {A : Type} (lt : A -> A -> bool) (y : A) (l : list A) :
  In y (sort_by lt l) <-> In y l.
Proof.
  unfold sort_by. induction l as [| x l IH]; simpl; [tauto |].
  rewrite insert_sorted_In, IH. intuition.
Qed.

Lemma sort_by_length {A : Type} (lt : A -> A -> bool) (l : list A) :
  length (sort_by lt l) = length l.
Proof.
  unfold sort_by. induction l as [| x l IH]; simpl; [reflexivity |].
  now rewrite insert_sorted_length, IH.
Qed.

(** A read inside the array gives one of the elements. *)
Lemma array_get_sorted (l : list float) (i : nat) :
  i < length l ->
  exists x, array_get (Array_sort l) (Z.of_nat i) = Some x /\ In x l.
Proof.
  intros Hi. unfold array_get.
  destruct (Z.ltb_spec (Z.of_nat i) 0) as [Hneg | _]; [lia |].
  rewrite Nat2Z.id.
  destruct (nth_error (Array_sort l) i) as [x |] eqn:Hx.
  - exists x. split; [reflexivity |].
    apply nth_error_In in Hx. now apply sort_by_In in Hx.
  - apply nth_error_None in Hx. unfold Array_sort in Hx.
    rewrite sort_by_length in Hx. lia.
Qed.

Lemma median_of_in_range (l : list float) :
  l <> [] ->
  if Nat.odd (length l)
  then In (median_of l) l
  else exists a b, In a l /\ In b l /\ median_of l = (a + b) / lit 2.
Proof.
  intros Hne. unfold median_of. cbv zeta.
  change (length (Array_sort l)) with (length (sort_by default_lt l)).
  rewrite sort_by_length.
  assert (Hn : 0 < length l) by (destruct l; [now destruct Hne | simpl; lia]).
  assert (Hhalf : length l / 2 < length l) by (apply Nat.div_lt; lia).
  destruct (array_get_sorted l (length l / 2) Hhalf) as (b & Hb & Hbin).
  destruct (Nat.odd (length l)) eqn:Hodd.
  - rewrite Hb. exact Hbin.
  - assert (H2 : 2 <= length l).
    { destruct (length l) as [| [| n]]; [lia | discriminate | lia]. }
    assert (H1 : 1 <= length l / 2)
      by (apply Nat.div_le_lower_bound; simpl; lia).
    assert (Hprev : length l / 2 - 1 < length l) by lia.
    destruct (array_get_sorted l (length l / 2 - 1) Hprev) as (a & Ha & Hain).
    replace (Z.of_nat (length l / 2) - 1)%Z with (Z.of_nat (length l / 2 - 1))
      by lia.
    rewrite Ha, Hb. exists a, b. auto.
Qed.

(** *** Differences and quotients that are zero *)

Lemma sub_self_finite (x : float) :
  is_finite_number x = true -> PrimFloat.sub x x = lit 0.
Proof.
  intros Hfin. apply Prim2SF_inj.
  rewrite FloatAxioms.sub_spec. unfold is_finite_number in Hfin.
  change (Prim2SF (lit 0)) with (S754_zero false).
  destruct (Prim2SF x) as [s | s | | s m ex]; try discriminate.
  - now destruct s.
  - unfold SF64sub, SFsub. rewrite Z.min_id, shl_align_ge by lia.
    cbn [fst]. now rewrite Z.sub_diag.
Qed.

Lemma zero_div_positive (y : float) :
  PrimFloat.ltb (lit 0) y = true -> PrimFloat.div (lit 0) y = lit 0.
Proof.
  rewrite FloatAxioms.ltb_spec. intros Hpos.
  apply Prim2SF_inj. rewrite FloatAxioms.div_spec.
  change (Prim2SF (lit 0)) with (S754_zero false) in *.
  unfold SFltb, SFcompare in Hpos.
  destruct (Prim2SF y) as [s | s | | s m ex]; try discriminate;
    destruct s; try discriminate; reflexivity.
Qed.


(** *** calculateMatchQuality *)

(** X25: [calculateMatchQuality] always returns; [qualities] holds the
    quality against each opponent, in the order of the opponents, and
    [avg] is their sum, added up in that order from 0, over their
    number. *)
Theorem calculateMatchQuality_qualities_in_order
    (pow : float -> float -> float) (e : Exports float)
    (player : PlayerRating float) (opponents : list (PlayerRating float)) :
  exists q,
    calculateMatchQuality pow e player opponents = Normal q
    /\ qualities q = map (calculateMatchQualityG1 pow e player) opponents
    /\ avg q = fold_left add (qualities q) (lit 0)
               / float_of_Z (Z.of_nat (length opponents)).
Proof.
  destruct (calculateMatchQuality_ok pow e player opponents)
    as (t & (Hq & Hsum & _) & ->).
  eexists. split; [reflexivity |]. cbn [qualities avg].
  split; [exact Hq | now rewrite Hsum].
Qed.

(** X26: no quality is below [min] and none is above [max]; [min] is
    one of the qualities or the initial 1.0, [max] is one of the
    qualities or the initial 0.0. *)
Theorem calculateMatchQuality_min_max
    (pow : float -> float -> float) (e : Exports float)
    (player : PlayerRating float) (opponents : list (PlayerRating float)) :
  exists q,
    calculateMatchQuality pow e player opponents = Normal q
    /\ (forall x, In x (qualities q) ->
                  (x <? min q) = false /\ (max q <? x) = false)
    /\ (min q = lit 1 \/ In (min q) (qualities q))
    /\ (max q = lit 0 \/ In (max q) (qualities q)).
Proof.
  destruct (calculateMatchQuality_ok pow e player opponents)
    as (t & (_ & _ & Hmin & Hmin' & Hmax & Hmax' & _) & ->).
  eexists. split; [reflexivity |]. cbn [qualities min max].
  split; [intros x Hx; split; [now apply Hmin | now apply Hmax] |].
  split; assumption.
Qed.

(** X27: with at least one opponent, [str] is the quality against an
    opponent whose rating no opponent exceeds. *)
Theorem calculateMatchQuality_strongest
    (pow : float -> float -> float) (e : Exports float)
    (player : PlayerRating float) (opponents : list (PlayerRating float)) :
  opponents <> [] ->
  exists q s,
    calculateMatchQuality pow e player opponents = Normal q
    /\ In s opponents
    /\ str q = calculateMatchQualityG1 pow e player s
    /\ forall o, In o opponents -> (rating s <? rating o) = false.
Proof.
  intros Hne.
  destruct (calculateMatchQuality_ok pow e player opponents)
    as (t & (_ & _ & _ & _ & _ & _ & Hstr) & ->).
  destruct (t_strongestOpponent t) as [s |].
  - destruct Hstr as (Hs & Hval & Htop).
    eexists. exists s. split; [reflexivity |]. cbn [str]. auto.
  - destruct Hstr as [Hnil _]. contradiction.
Qed.

(** X28: with at least one opponent the reads of the sorted array
    are inside it: for an odd number of opponents [med] is one of
    the qualities, for an even number it is the half of the sum of two
    of them. *)
Theorem calculateMatchQuality_median_in_range
    (pow : float -> float -> float) (e : Exports float)
    (player : PlayerRating float) (opponents : list (PlayerRating float)) :
  opponents <> [] ->
  exists q,
    calculateMatchQuality pow e player opponents = Normal q
    /\ if Nat.odd (length opponents)
       then In (med q) (qualities q)
       else exists a b,
              In a (qualities q) /\ In b (qualities q)
              /\ med q = (a + b) / lit 2.
Proof.
  intros Hne.
  destruct (calculateMatchQuality_ok pow e player opponents)
    as (t & (Hq & _) & ->).
  eexists. split; [reflexivity |]. cbn [qualities med].
  assert (Hlen : length opponents = length (t_qualities t))
    by now rewrite Hq, length_map.
  rewrite Hlen. apply median_of_in_range.
  rewrite Hq. destruct opponents; [now destruct Hne | discriminate].
Qed.

(** X29: against an opponent of the player's own (finite) rating the
    quality is exactly 1.0, on every engine with [Math.pow(10, 0) = 1]
    and whenever [2.0 * InitialDeviation] is positive. *)
Theorem calculateMatchQualityG1_equal_ratings
    (pow : float -> float -> float) (e : Exports float)
    (player opponent : PlayerRating float) :
  pow (lit 10) (lit 0) = lit 1 ->
  (lit 0 <? lit 2 * InitialDeviation e) = true ->
  is_finite_number (rating player) = true ->
  rating opponent = rating player ->
  calculateMatchQualityG1 pow e player opponent = lit 1.
Proof.
  intros Hpow Hdev Hfin Hsame. unfold calculateMatchQualityG1.
  cbn [sub div mul ltb float_Arith] in *.
  rewrite Hsame, (sub_self_finite _ Hfin), (zero_div_positive _ Hdev), Hpow.
  vm_compute. reflexivity.
Qed.

End QualityResults.

(** ** A call without opponents *)

Section NoOpponents.
Local Open Scope js_scope.



End NoOpponents.

(** ** The theorems at inputs *)

Section Instances.

Lemma three_players_distinct : NoDup (concat [[0]; [1; 2]]).
Proof.
  simpl. repeat constructor; simpl; intuition discriminate.
Qed.

Lemma deriveMatches_every_player_against_all_others_witness :
  exists ms : list (Match R),
    deriveMatches [[0]; [1; 2]] None = Normal ms
    /\ map player ms = [0; 1; 2]
    /\ forall m, In m ms ->
         opponents m = filter (fun q => negb (q =? player m)) [0; 1; 2]
         /\ length (outcomes m) = length (opponents m)
         /\ length (opponents m) = 2.
Proof.
  exact (deriveMatches_every_player_against_all_others [[0]; [1; 2]]
           three_players_distinct).
Defined.

Lemma deriveMatches_outcome_by_rank_witness :
  Loss (num := R) = if 1 <? 0 then Win else if 0 <? 1 then Loss else Draw.
Proof.
  refine (deriveMatches_outcome_by_rank (num := R) [[0]; [1; 2]] _
            {| player := 1; opponents := [0; 2]; outcomes := [Loss; Draw] |}
            0 0 Loss 1 0 [1; 2] [0] three_players_distinct eq_refl _
            eq_refl eq_refl eq_refl _ eq_refl _).
  - right. left. reflexivity.
  - left. reflexivity.
  - left. reflexivity.
Defined.

Lemma deriveMatches_filter_not_ranked_witness :
  deriveMatches (num := R) [[0]; [1; 2]] (Some 7) = Throw err_no_match
  <-> ~ In 7 (concat [[0]; [1; 2]]).
Proof.
  exact (deriveMatches_filter_not_ranked [[0]; [1; 2]] 7 three_players_distinct).
Defined.

Lemma deriveMatches_filter_selects_witness :
  exists (ms : list (Match R)) (m : Match R),
    deriveMatches [[0]; [1; 2]] None = Normal ms
    /\ deriveMatches [[0]; [1; 2]] (Some 2) = Normal [m]
    /\ filter (fun m' => player m' =? 2) ms = [m]
    /\ player m = 2.
Proof.
  apply (deriveMatches_filter_selects [[0]; [1; 2]] 2 three_players_distinct).
  simpl. right. right. left. reflexivity.
Defined.

Lemma updateRatings_of_derived_matches_never_throws_witness :
  updateRatings defaults 0 fresh_store derived_batch
  <> (fresh_store, Throw err_lengths).
Proof.
  exact (updateRatings_of_derived_matches_never_throws [[0]; [1]] None
           derived_batch defaults 0 fresh_store eq_refl fresh_store err_lengths).
Defined.

Lemma updateRatings_stops_at_first_error_witness :
  updateRatings defaults 0 fresh_store idle_then_ill_formed
  = (updateRatingDidNotCompete fresh_store 0, Throw err_lengths).
Proof.
  apply (updateRatings_stops_at_first_error defaults 0 idle_then_ill_formed
           fresh_store (updateRatingDidNotCompete fresh_store 0) 1
           {| player := 1; opponents := [0]; outcomes := [] |}).
  - reflexivity.
  - reflexivity.
  - simpl. discriminate.
Defined.

Lemma updateRatings_assigns_players_only_witness :
  fst (updateRatings defaults 0 fresh_store two_matches) 2 = fresh_store 2.
Proof.
  apply (updateRatings_assigns_players_only defaults 0 two_matches 2).
  intros m [<- | [<- | []]]; simpl; discriminate.
Defined.

Lemma calculateRating_ignores_opponent_volatility_witness :
  calculateRating defaults 1 (newRating defaults) [newRating defaults] [Win]
  = calculateRating defaults 1 (newRating defaults) [erratic_opponent] [Win].
Proof.
  apply calculateRating_ignores_opponent_volatility.
  constructor; [split; reflexivity | constructor].
Defined.


Local Open Scope R_scope.

Lemma expected_score_monotone_witness :
  E 0 0 1 < E 1 0 1 /\ E 0 1 1 < E 0 0 1.
Proof.
  apply (expected_score_monotone 0 1 0 1). lra.
Defined.

Lemma variance_estimate_positive_witness :
  0 < v_sum (newRating defaults) [newRating defaults]
  /\ 0 < 1 / v_sum (newRating defaults) [newRating defaults].
Proof.
  apply variance_estimate_positive. discriminate.
Defined.

Lemma calculateRating_result_bounds_witness :
  volatility
    (rating_after_solver (newRating defaults) [newRating defaults] [Draw] 0)
  = exp (0 / 2)
  /\ 0 < volatility
           (rating_after_solver (newRating defaults) [newRating defaults]
              [Draw] 0)
  /\ 0 < deviation
           (rating_after_solver (newRating defaults) [newRating defaults]
              [Draw] 0)
  /\ deviation
       (rating_after_solver (newRating defaults) [newRating defaults] [Draw] 0)
     * deviation
         (rating_after_solver (newRating defaults) [newRating defaults]
            [Draw] 0)
     < deviation (newRating defaults) * deviation (newRating defaults)
       + scale_factor
         * volatility
             (rating_after_solver (newRating defaults) [newRating defaults]
                [Draw] 0)
         * (scale_factor
            * volatility
                (rating_after_solver (newRating defaults)
                   [newRating defaults] [Draw] 0)).
Proof.
  apply (proj2 calculateRating_result_bounds (newRating defaults)
           [newRating defaults] [Draw] 0); [discriminate | reflexivity].
Defined.

Lemma calculateRating_wins_raise_losses_lower_witness :
  rating (newRating defaults)
  < rating
      (rating_after_solver (newRating defaults) [newRating defaults] [Win] 0).
Proof.
  apply (proj1 (calculateRating_wins_raise_losses_lower (newRating defaults)
                  [newRating defaults] [Win] 0
                  ltac:(discriminate) eq_refl)).
  constructor; [reflexivity | constructor].
Defined.

Lemma calculateRating_draws_with_equals_keep_rating_witness :
  rating
    (rating_after_solver (newRating defaults) [newRating defaults] [Draw] 0)
  = rating (newRating defaults).
Proof.
  apply (calculateRating_draws_with_equals_keep_rating (newRating defaults)
           [newRating defaults] [Draw] 0).
  - discriminate.
  - reflexivity.
  - constructor; [reflexivity | constructor].
  - constructor; [reflexivity | constructor].
Defined.

Lemma updateRatingDidNotCompete_unbounded_witness :
  exists n : nat,
    1000 < deviation
             (Nat.iter n (fun s => updateRatingDidNotCompete s 0%nat)
                fresh_store 0%nat).
Proof.
  apply (updateRatingDidNotCompete_unbounded fresh_store 0%nat 1000).
  cbn [fresh_store newRating defaults volatility InitialVolatility lit R_Arith].
  unfold Q2R. simpl. lra.
Defined.

Lemma bracket_encloses_sign_change_witness :
  f 2 1 1 0 (1 * 1) 0 * f 2 1 1 0 (1 * 1) (ln (2 * 2 - 1 - 1)) <= 0.
Proof.
  apply (bracket_encloses_sign_change 2 1 1 0 1 (ln (2 * 2 - 1 - 1)) 0).
  - lra.
  - lra.
  - unfold bracket_B.
    assert (H : ltb (add 1 1) (Math_sq 2) = true).
    { apply ltb_R_true. unfold Math_sq. cbn [add mul R_Arith]. lra. }
    rewrite H. reflexivity.
Defined.

Lemma illinois_stalls_at_exact_root_witness :
  illinois 5 (fun x : R => x) 1 0 1 0 = None.
Proof.
  apply (illinois_stalls_at_exact_root (fun x : R => x) 1 0 1).
  - reflexivity.
  - lra.
  - rewrite Rabs_left; lra.
Defined.

Lemma derived_batch_first_rises_last_falls_witness :
  exists (ms : list (Match R)) (m : Match R),
    deriveMatches [[0%nat]; [1%nat]] None = Normal ms
    /\ In m ms /\ player m = 0%nat
    /\ opponents m = concat [[1%nat]]
    /\ Forall (fun s => s = Win) (outcomes m)
    /\ rating (fresh_store 0%nat)
       < rating (rating_after_solver (fresh_store 0%nat)
                   (map fresh_store (opponents m)) (outcomes m) 0).
Proof.
  apply (proj1 (derived_batch_first_rises_last_falls [[0%nat]; [1%nat]] 0%nat
                  fresh_store 0
                  ltac:(simpl; repeat constructor; simpl; intuition discriminate))
           [[1%nat]] eq_refl).
  discriminate.
Defined.

Lemma calculateRating_order_of_games_witness :
  calculateRating defaults 1 (newRating defaults)
    [newRating defaults; erratic_opponent] [Win; Loss]
  = calculateRating defaults 1 (newRating defaults)
      [erratic_opponent; newRating defaults] [Loss; Win].
Proof.
  apply calculateRating_order_of_games;
    [reflexivity | reflexivity | apply perm_swap].
Defined.

Local Close Scope R_scope.
Local Open Scope js_scope.


Lemma calculateMatchQuality_strongest_witness :
  exists q s,
    calculateMatchQuality pow_whole defaults (newRating defaults) four_opponents
    = Normal q
    /\ In s four_opponents
    /\ str q = calculateMatchQualityG1 pow_whole defaults (newRating defaults) s
    /\ forall o, In o four_opponents -> (rating s <? rating o) = false.
Proof.
  apply calculateMatchQuality_strongest. discriminate.
Defined.

Lemma calculateMatchQuality_median_in_range_witness :
  exists q,
    calculateMatchQuality pow_whole defaults (newRating defaults) four_opponents
    = Normal q
    /\ exists a b,
         In a (qualities q) /\ In b (qualities q) /\ med q = (a + b) / lit 2.
Proof.
  apply (calculateMatchQuality_median_in_range pow_whole defaults
           (newRating defaults) four_opponents).
  discriminate.
Defined.

Lemma calculateMatchQualityG1_equal_ratings_witness :
  calculateMatchQualityG1 pow_whole defaults (newRating defaults)
    (newRating defaults) = lit 1.
Proof.
  apply calculateMatchQualityG1_equal_ratings.
  - vm_compute. reflexivity.
  - vm_compute. reflexivity.
  - vm_compute. reflexivity.
  - reflexivity.
Defined.

End Instances.
